(** * smart-text-search: a shallow embedding of [src/index.ts]

    The scorer [search] takes a query, a body and optional option overrides
    and returns one number.  This development embeds the whole pipeline
    (option merging, normalisation, tokenisation, the four scoring
    strategies and their aggregation) and states the properties of the
    specification against it.

    Modelling conventions.
    - A JavaScript string is a sequence of UTF-16 code units.  The model
      covers the strings whose code units are below 256: a [string] of
      Rocq, each [ascii] standing for the code unit of the same number.
    - A JavaScript number is an IEEE 754 binary64 value: a primitive
      [float], with the rounding, the infinities and the [NaN] of the
      source.  Lengths, indexes and the counters of the loops are naturals;
      [of_nat] makes them numbers where the source multiplies them with
      one, exactly for every length a string or an array can have.
    - [undefined] is [None]; a thrown exception is [Throw].
    - The methods of the host ([split], [match], [replace],
      [toLocaleLowerCase], ...) are functions on strings that scan from
      left to right as the host does.  The regular expression built from
      the query is the pattern itself when it has no syntax character; on
      the other patterns the engine of the host is a parameter.
    - [search] records the scorer functions it calls, so that skipping a
      scorer can be told from calling it. *)

From Stdlib Require Import Bool Arith NArith ZArith Lia List Permutation Ascii String.
From Stdlib Require Import Floats Uint63.
Import ListNotations.

Local Open Scope string_scope.
Local Open Scope list_scope.

Set Implicit Arguments.

(* ================================================================== *)
(** * The host language *)
(* ================================================================== *)

Module JS.

(** ** Code units and the character classes of the regular expressions *)

Definition code (c : ascii) : N := N_of_ascii c.

Definition between (lo hi : N) (c : ascii) : bool :=
  ((lo <=? code c) && (code c <=? hi))%N.

(** [\s]: the white space and line terminator code units below 256
    (TAB, LF, VT, FF, CR, SP and NBSP). *)
Definition isWhiteSpace (c : ascii) : bool :=
  between 9 13 c || (code c =? 32)%N || (code c =? 160)%N.

(** [\w] is [[A-Za-z0-9_]]; [\W] is its complement. *)
Definition isWordChar (c : ascii) : bool :=
  between 48 57 c || between 65 90 c || (code c =? 95)%N || between 97 122 c.

(** A character class written by enumerating its members. *)
Fixpoint charIn (c : ascii) (members : string) : bool :=
  match members with
  | EmptyString => false
  | String m rest => Ascii.eqb c m || charIn c rest
  end.

(** The quotation mark, code unit 34. *)
Definition quote : ascii := ascii_of_N 34.

(** ** Numbers *)

Definition number := float.

(** The number of a length or of an index. *)
Definition of_nat (n : nat) : number :=
  PrimFloat.of_uint63 (Uint63.of_Z (Z.of_nat n)).

Definition NaN : number := PrimFloat.nan.

(** [ToNumber] and [ToBoolean] on a value that may be [undefined]. *)
Definition ToNumber (v : option number) : number :=
  match v with
  | Some x => x
  | None => NaN
  end.

Definition ToBoolean (v : option bool) : bool :=
  match v with
  | Some b => b
  | None => false
  end.

(** [v !== 0]: [undefined] is of another type than [0]; two numbers are
    compared as IEEE 754 does ([-0] equals [0], [NaN] equals nothing). *)
Definition strictNeqZero (v : option number) : bool :=
  match v with
  | Some x => negb (PrimFloat.eqb x 0)
  | None => true
  end.

(** ** Strings *)

(** [String.prototype.toLocaleLowerCase] in a locale without special
    casing rules, on code units below 256: the Basic Latin and Latin-1
    capital letters move 32 up.  Outside this range the function of the
    host is no map of code units (it can lengthen a text); the theorems use
    of it that it is idempotent and brings no syntax character into a
    text. *)
Definition lowerChar (c : ascii) : ascii :=
  if between 65 90 c || between 192 214 c || between 216 222 c
  then ascii_of_N (code c + 32)
  else c.

Fixpoint toLocaleLowerCase (s : string) : string :=
  match s with
  | EmptyString => EmptyString
  | String c rest => String (lowerChar c) (toLocaleLowerCase rest)
  end.

(** [s.replace(/[members]/g, by)]: every code unit of the class is
    replaced. *)
Fixpoint replaceClass (members : string) (by_ : string) (s : string) : string :=
  match s with
  | EmptyString => EmptyString
  | String c rest =>
      if charIn c members
      then by_ ++ replaceClass members by_ rest
      else String c (replaceClass members by_ rest)
  end.

Definition startsWithWhiteSpace (s : string) : bool :=
  match s with
  | String c _ => isWhiteSpace c
  | EmptyString => false
  end.

(** [s.replace(/\s\s+/g, " ")].  The scan goes left to right; a match
    starts at a white space followed by another one and, being greedy,
    runs to the end of the white space ([inMatch] is true while the scan is
    inside a match). *)
Fixpoint collapseFrom (inMatch : bool) (s : string) : string :=
  match s with
  | EmptyString => EmptyString
  | String c rest =>
      if inMatch then
        if isWhiteSpace c then collapseFrom true rest
        else String c (collapseFrom false rest)
      else if isWhiteSpace c && startsWithWhiteSpace rest
           then String " " (collapseFrom true rest)
           else String c (collapseFrom false rest)
  end.

Definition replaceWhiteSpaceRuns (s : string) : string := collapseFrom false s.

Definition snoc (s : string) (c : ascii) : string := s ++ String c EmptyString.

(** [s.split(/(\W+)/)]: the pieces between the maximal runs of non-word
    characters, and, the group being a capturing one, the runs themselves
    in between.  [inSep] tells whether [tok] is a run being read. *)
Fixpoint splitFrom (inSep : bool) (tok : string) (s : string) : list string :=
  match s with
  | EmptyString => if inSep then [tok; EmptyString] else [tok]
  | String c rest =>
      if isWordChar c then
        if inSep then tok :: splitFrom false (String c EmptyString) rest
        else splitFrom false (snoc tok c) rest
      else
        if inSep then splitFrom true (snoc tok c) rest
        else tok :: splitFrom true (String c EmptyString) rest
  end.

Definition splitNonWord (s : string) : list string := splitFrom false EmptyString s.

(** The matches of [/\S+/g] from left to right: [tok] is the match being
    read, if any. *)
Fixpoint nonSpaceFrom (tok : option string) (s : string) : list string :=
  match s with
  | EmptyString =>
      match tok with
      | Some t => [t]
      | None => []
      end
  | String c rest =>
      if isWhiteSpace c then
        match tok with
        | Some t => t :: nonSpaceFrom None rest
        | None => nonSpaceFrom None rest
        end
      else
        match tok with
        | Some t => nonSpaceFrom (Some (snoc t c)) rest
        | None => nonSpaceFrom (Some (String c EmptyString)) rest
        end
  end.

(** [s.match(/\S+/g)]: the array of the matches, or [null] (here [None])
    when there is none. *)
Definition matchNonSpace (s : string) : option (list string) :=
  match nonSpaceFrom None s with
  | [] => None
  | l => Some l
  end.

(** [a || []] on the result of a match. *)
Definition orEmpty (a : option (list string)) : list string :=
  match a with
  | Some l => l
  | None => []
  end.

(** [String.prototype.trim]. *)
Fixpoint trimStart (s : string) : string :=
  match s with
  | EmptyString => EmptyString
  | String c rest => if isWhiteSpace c then trimStart rest else s
  end.

Fixpoint trimEndAux (s : string) : string * bool :=
  match s with
  | EmptyString => (EmptyString, true)
  | String c rest =>
      let '(r, blank) := trimEndAux rest in
      if blank && isWhiteSpace c then (EmptyString, true)
      else (String c r, false)
  end.

Definition trim (s : string) : string := fst (trimEndAux (trimStart s)).

(** ** Arrays *)

(** [a.includes(x)] on an array of strings. *)
Definition includes (a : list string) (x : string) : bool :=
  existsb (String.eqb x) a.

(** [a[i]]: [undefined] out of range. *)
Definition at_ (a : list string) (i : nat) : option string := nth_error a i.

(** [x === y] on values that are strings or [undefined]. *)
Definition strictEq (x y : option string) : bool :=
  match x, y with
  | Some a, Some b => String.eqb a b
  | None, None => true
  | _, _ => false
  end.

(** ** Exceptions *)

Inductive exception : Type :=
| SyntaxError
| TypeError.

Inductive completion (A : Type) : Type :=
| Return (a : A)
| Throw (e : exception).

Arguments Return {A} a.
Arguments Throw {A} e.

End JS.

Import JS.

(* ================================================================== *)
(** * The options *)
(* ================================================================== *)

(** The fourteen keys of [SearchOptions].  [F] is what a key holds: a
    value in the interface itself, a value or [undefined] in the object
    [search] reads after the spread, an own property or nothing in a
    [Partial<SearchOptions>]. *)
Record Options (F : Type -> Type) : Type := {
  exactMatchPoints : F number;
  exactContainingMatchPoints : F number;
  singleWordMatchPoints : F number;
  singleWordMatchLengthMultiplier : F number;
  uniqueSingleWordMatchPoints : F number;
  uniqueSingleWordMatchLengthMultiplier : F number;
  consecutiveWordMatchPoints : F number;
  consecutiveWordMatchLengthMultiplier : F number;
  consecutiveWordSequenceMatchPoints : F number;
  consecutiveWordSequenceLengthMultiplier : F number;
  isCaseSensitive : F bool;
  shouldMatchPunctuation : F bool;
  shouldMatchWhitespaceAndPunctuation : F bool;
  shouldCollapseWhitespace : F bool
}.

(** A key of a partial object: absent, or an own property whose value may
    be [undefined] (the type [Partial] allows both). *)
Inductive property (A : Type) : Type :=
| Absent
| Own (v : option A).

Arguments Absent {A}.
Arguments Own {A} v.

Definition SearchOptions : Type := Options (fun A => A).
Definition PartialSearchOptions : Type := Options property.
Definition EffectiveOptions : Type := Options option.

Record SearchInputs : Type := {
  query : string;
  body : string;
  options : option PartialSearchOptions
}.

Definition defaultSearchOptions : SearchOptions := {|
  exactMatchPoints := 70%float;
  exactContainingMatchPoints := 50%float;
  singleWordMatchPoints := 1%float;
  singleWordMatchLengthMultiplier := 1.5%float;
  uniqueSingleWordMatchPoints := 2%float;
  uniqueSingleWordMatchLengthMultiplier := 1.5%float;
  consecutiveWordMatchPoints := 5%float;
  consecutiveWordMatchLengthMultiplier := 2%float;
  consecutiveWordSequenceMatchPoints := 1%float;
  consecutiveWordSequenceLengthMultiplier := 1.5%float;
  isCaseSensitive := false;
  shouldMatchPunctuation := true;
  shouldMatchWhitespaceAndPunctuation := true;
  shouldCollapseWhitespace := true
|}.

(** The object without own properties: what spreading [undefined] adds. *)
Definition noOptions : PartialSearchOptions := {|
  exactMatchPoints := Absent;
  exactContainingMatchPoints := Absent;
  singleWordMatchPoints := Absent;
  singleWordMatchLengthMultiplier := Absent;
  uniqueSingleWordMatchPoints := Absent;
  uniqueSingleWordMatchLengthMultiplier := Absent;
  consecutiveWordMatchPoints := Absent;
  consecutiveWordMatchLengthMultiplier := Absent;
  consecutiveWordSequenceMatchPoints := Absent;
  consecutiveWordSequenceLengthMultiplier := Absent;
  isCaseSensitive := Absent;
  shouldMatchPunctuation := Absent;
  shouldMatchWhitespaceAndPunctuation := Absent;
  shouldCollapseWhitespace := Absent
|}.

(** One key of [{...defaults, ...override}]: the spread copies every own
    property of the override, whatever its value. *)
Definition spreadKey {A : Type} (default : A) (override : property A) : option A :=
  match override with
  | Absent => Some default
  | Own v => v
  end.

Definition spread (d : SearchOptions) (o : PartialSearchOptions) : EffectiveOptions := {|
  exactMatchPoints := spreadKey (exactMatchPoints d) (exactMatchPoints o);
  exactContainingMatchPoints :=
    spreadKey (exactContainingMatchPoints d) (exactContainingMatchPoints o);
  singleWordMatchPoints := spreadKey (singleWordMatchPoints d) (singleWordMatchPoints o);
  singleWordMatchLengthMultiplier :=
    spreadKey (singleWordMatchLengthMultiplier d) (singleWordMatchLengthMultiplier o);
  uniqueSingleWordMatchPoints :=
    spreadKey (uniqueSingleWordMatchPoints d) (uniqueSingleWordMatchPoints o);
  uniqueSingleWordMatchLengthMultiplier :=
    spreadKey (uniqueSingleWordMatchLengthMultiplier d)
              (uniqueSingleWordMatchLengthMultiplier o);
  consecutiveWordMatchPoints :=
    spreadKey (consecutiveWordMatchPoints d) (consecutiveWordMatchPoints o);
  consecutiveWordMatchLengthMultiplier :=
    spreadKey (consecutiveWordMatchLengthMultiplier d)
              (consecutiveWordMatchLengthMultiplier o);
  consecutiveWordSequenceMatchPoints :=
    spreadKey (consecutiveWordSequenceMatchPoints d)
              (consecutiveWordSequenceMatchPoints o);
  consecutiveWordSequenceLengthMultiplier :=
    spreadKey (consecutiveWordSequenceLengthMultiplier d)
              (consecutiveWordSequenceLengthMultiplier o);
  isCaseSensitive := spreadKey (isCaseSensitive d) (isCaseSensitive o);
  shouldMatchPunctuation := spreadKey (shouldMatchPunctuation d) (shouldMatchPunctuation o);
  shouldMatchWhitespaceAndPunctuation :=
    spreadKey (shouldMatchWhitespaceAndPunctuation d)
              (shouldMatchWhitespaceAndPunctuation o);
  shouldCollapseWhitespace :=
    spreadKey (shouldCollapseWhitespace d) (shouldCollapseWhitespace o)
|}.

(** The object [search] destructures: [{...defaultSearchOptions, ...options}]. *)
Definition effectiveOptions (options : option PartialSearchOptions) : EffectiveOptions :=
  spread defaultSearchOptions
         match options with
         | Some o => o
         | None => noOptions
         end.

(** A property that holds of every key: [R] relates the default, the
    override and the effective value of the key. *)
Definition everyKey
    (R : forall A : Type, A -> property A -> option A -> Prop)
    (d : SearchOptions) (o : PartialSearchOptions) (e : EffectiveOptions) : Prop :=
  R _ (exactMatchPoints d) (exactMatchPoints o) (exactMatchPoints e) /\
  R _ (exactContainingMatchPoints d) (exactContainingMatchPoints o)
      (exactContainingMatchPoints e) /\
  R _ (singleWordMatchPoints d) (singleWordMatchPoints o) (singleWordMatchPoints e) /\
  R _ (singleWordMatchLengthMultiplier d) (singleWordMatchLengthMultiplier o)
      (singleWordMatchLengthMultiplier e) /\
  R _ (uniqueSingleWordMatchPoints d) (uniqueSingleWordMatchPoints o)
      (uniqueSingleWordMatchPoints e) /\
  R _ (uniqueSingleWordMatchLengthMultiplier d) (uniqueSingleWordMatchLengthMultiplier o)
      (uniqueSingleWordMatchLengthMultiplier e) /\
  R _ (consecutiveWordMatchPoints d) (consecutiveWordMatchPoints o)
      (consecutiveWordMatchPoints e) /\
  R _ (consecutiveWordMatchLengthMultiplier d) (consecutiveWordMatchLengthMultiplier o)
      (consecutiveWordMatchLengthMultiplier e) /\
  R _ (consecutiveWordSequenceMatchPoints d) (consecutiveWordSequenceMatchPoints o)
      (consecutiveWordSequenceMatchPoints e) /\
  R _ (consecutiveWordSequenceLengthMultiplier d)
      (consecutiveWordSequenceLengthMultiplier o)
      (consecutiveWordSequenceLengthMultiplier e) /\
  R _ (isCaseSensitive d) (isCaseSensitive o) (isCaseSensitive e) /\
  R _ (shouldMatchPunctuation d) (shouldMatchPunctuation o) (shouldMatchPunctuation e) /\
  R _ (shouldMatchWhitespaceAndPunctuation d) (shouldMatchWhitespaceAndPunctuation o)
      (shouldMatchWhitespaceAndPunctuation e) /\
  R _ (shouldCollapseWhitespace d) (shouldCollapseWhitespace o)
      (shouldCollapseWhitespace e).

(* ================================================================== *)
(** * The scorers *)
(* ================================================================== *)

Definition getExactMatchScore (query body : string) : number :=
  if String.eqb query body then 1%float else 0%float.

(** ** The exact-containing matcher *)

(** The syntax characters of a pattern: [^ $ \ . * + ? ( ) [ ] { } |]. *)
Definition syntaxCharacters : string := "^$\.*+?()[]{}|".

Fixpoint hasSyntaxCharacter (pattern : string) : bool :=
  match pattern with
  | EmptyString => false
  | String c rest => charIn c syntaxCharacters || hasSyntaxCharacter rest
  end.

(** The number of matches [subject.match(re)] finds for a global [re]
    whose pattern has no syntax character and so matches itself only.  The
    scan tries each index from left to right and goes on behind a match, or
    one code unit further when the match is empty; [skip] counts the code
    units of the last match that are still to pass. *)
Fixpoint countLiteralFrom (pattern : string) (skip : nat) (subject : string) {struct subject} : nat :=
  match skip with
  | S skip' =>
      match subject with
      | EmptyString => 0
      | String _ rest => countLiteralFrom pattern skip' rest
      end
  | O =>
      if String.prefix pattern subject then
        S match subject with
          | EmptyString => 0
          | String _ rest => countLiteralFrom pattern (String.length pattern - 1) rest
          end
      else
        match subject with
        | EmptyString => 0
        | String _ rest => countLiteralFrom pattern 0 rest
        end
  end.

Definition countLiteral (pattern subject : string) : nat :=
  countLiteralFrom pattern 0 subject.

Section Host.

(** The regular expression engine of the host on a pattern that has syntax
    characters: [hostRegExp p] is [None] when the constructor throws a
    [SyntaxError] on [p], and else the function that gives, for a subject,
    the number of matches of the global expression in it. *)
Variable hostRegExp : string -> option (string -> nat).

(** [new RegExp(query, "g")], then the length of [body.match(...) || []]. *)
Definition getExactContainingMatchScore (query body : string) : completion nat :=
  if hasSyntaxCharacter query then
    match hostRegExp query with
    | Some matches => Return (matches body)
    | None => Throw SyntaxError
    end
  else Return (countLiteral query body).

End Host.

(** ** The dampening factor *)

(** The class of [getCustomWordMultiplier]: the space, the thirty-one
    signs written below and the quotation mark, that is, the space and
    every punctuation sign of Basic Latin. *)
Definition punctuationClass : string :=
  " `!@#$%^&*()_+-=[]{};':" ++ String quote "\|,.<>/?~".

(** [word.match(/[members]/)] as a condition: some code unit of the word
    is in the class. *)
Fixpoint matchesClass (members : string) (word : string) : bool :=
  match word with
  | EmptyString => false
  | String c rest => charIn c members || matchesClass members rest
  end.

(** [0x1.999999999999ap-4] is the number the literal [0.1] denotes. *)
Definition getCustomWordMultiplier (word : string) : number :=
  if (String.length word =? 1)%nat && matchesClass punctuationClass word then 0x1.999999999999ap-4%float
  else if String.eqb word "the" || String.eqb word "a" || String.eqb word "of"
          || String.eqb word "I" || String.eqb word "and"
  then 0.5%float
  else 1%float.

(** ** The tokenizer *)

(** An expression statement: the value is computed and dropped. *)
Definition discard {A B : Type} (dropped : A) (next : B) : B := next.

Definition getWords (text : string)
    (shouldMatchWhitespaceAndPunctuation shouldMatchPunctuation : bool) : list string :=
  if shouldMatchWhitespaceAndPunctuation then splitNonWord text
  else
    discard
      (if shouldMatchPunctuation
       then orEmpty (option_map (filter (fun word => (0 <? String.length (trim word))%nat))
                                (matchNonSpace text))
       else [])
      (orEmpty (matchNonSpace text)).

(** ** The frequency scorers *)

Definition getSingleWordMatchScore (queryWords bodyWords : list string)
    (singleWordMatchLengthMultiplier : number) : number :=
  let sharedWords := filter (fun queryWord => includes bodyWords queryWord) queryWords in
  fold_left
    (fun score queryWord =>
       score +
       of_nat (List.length (filter (fun bodyWord => String.eqb bodyWord queryWord) bodyWords)) *
       of_nat (String.length queryWord) *
       singleWordMatchLengthMultiplier *
       getCustomWordMultiplier queryWord)%float
    sharedWords 0%float.

Definition getUniqueSingleWordMatchScore (queryWords bodyWords : list string)
    (uniqueSingleWordMatchLengthMultiplier : number) : number :=
  let sharedWords := filter (fun element => includes bodyWords element) queryWords in
  fold_left
    (fun score word =>
       score +
       of_nat (String.length word) *
       uniqueSingleWordMatchLengthMultiplier *
       getCustomWordMultiplier word)%float
    sharedWords 0%float.

(** ** The consecutive-sequence scorer *)

(** An element of [matchIndexes] before the filter: an index or [""]. *)
Inductive indexOrEmpty : Type :=
| Index (i : nat)
| Empty.

(** [filter(String)]: [String(v)] is the decimal writing of an index, never
    empty and so truthy, or the empty string, falsy. *)
Definition stringIsTruthy (v : indexOrEmpty) : bool :=
  match v with
  | Index _ => true
  | Empty => false
  end.

Fixpoint mapWithIndex {A B : Type} (f : A -> nat -> B) (index : nat) (a : list A) : list B :=
  match a with
  | [] => []
  | x :: rest => f x index :: mapWithIndex f (S index) rest
  end.

Definition matchIndexes (bodyWords : list string) (queryWord : option string) : list indexOrEmpty :=
  filter stringIsTruthy
    (mapWithIndex
       (fun bodyWord index => if strictEq (Some bodyWord) queryWord then Index index else Empty)
       0 bodyWords).

(** The two maxima the scorer keeps across the loops. *)
Record maxima : Type := {
  mostConsecutiveWords : nat;
  longestConsecutiveWordSequence : nat
}.

(** The inner loop, [remaining] iterations before its bound
    [matchIndexes.length]; [firstBodyWord] is its counter.  A mismatch
    records the current run in the maxima and breaks; reading [length] of a
    body word out of range throws. *)
Fixpoint scanBody (queryWords bodyWords : list string) (firstQueryWord : nat)
    (remaining firstBodyWord currentConsecutiveWords currentConsecutiveWordSequence : nat)
    (best : maxima) : completion maxima :=
  match remaining with
  | O => Return best
  | S remaining' =>
      if negb (strictEq (at_ queryWords (firstQueryWord + currentConsecutiveWords))
                        (at_ bodyWords (firstBodyWord + currentConsecutiveWords)))
      then Return {| mostConsecutiveWords :=
                       Nat.max (mostConsecutiveWords best) currentConsecutiveWords;
                     longestConsecutiveWordSequence :=
                       Nat.max (longestConsecutiveWordSequence best)
                               currentConsecutiveWordSequence |}
      else
        match at_ bodyWords (firstBodyWord + currentConsecutiveWords) with
        | None => Throw TypeError
        | Some bodyWord =>
            scanBody queryWords bodyWords firstQueryWord remaining' (S firstBodyWord)
                     (S currentConsecutiveWords)
                     (currentConsecutiveWordSequence + String.length bodyWord) best
        end
  end.

(** The outer loop, [remaining] iterations before its bound
    [queryWords.length]. *)
Fixpoint scanQuery (queryWords bodyWords : list string) (remaining firstQueryWord : nat)
    (best : maxima) : completion maxima :=
  match remaining with
  | O => Return best
  | S remaining' =>
      let indexes := matchIndexes bodyWords (at_ queryWords firstQueryWord) in
      match scanBody queryWords bodyWords firstQueryWord (List.length indexes) 0 0 0 best with
      | Return best' => scanQuery queryWords bodyWords remaining' (S firstQueryWord) best'
      | Throw e => Throw e
      end
  end.

Record consecutiveScores : Type := {
  consecutiveWordScore : number;
  consecutiveWordSequenceScore : number
}.

Definition getConsecutiveWordSequenceMatchScore (queryWords bodyWords : list string)
    (consecutiveWordMatchLengthMultiplier consecutiveWordSequenceLengthMultiplier : number)
    : completion consecutiveScores :=
  match scanQuery queryWords bodyWords (List.length queryWords) 0
                  {| mostConsecutiveWords := 0; longestConsecutiveWordSequence := 0 |} with
  | Return best =>
      Return {| consecutiveWordScore :=
                  (of_nat (mostConsecutiveWords best) *
                   consecutiveWordMatchLengthMultiplier)%float;
                consecutiveWordSequenceScore :=
                  (of_nat (longestConsecutiveWordSequence best) *
                   consecutiveWordSequenceLengthMultiplier)%float |}
  | Throw e => Throw e
  end.

(** ** The normalizer *)

Definition getConfiguredText (text : string)
    (isCaseSensitive shouldMatchPunctuation shouldCollapseWhitespace : bool) : string :=
  let text := if negb isCaseSensitive then toLocaleLowerCase text else text in
  let text :=
    if negb shouldMatchPunctuation
    then replaceClass ".,'!$^*;:{}`~()" "" (replaceClass "/#%&=-" " " text)
    else text in
  let text := if shouldCollapseWhitespace then replaceWhiteSpaceRuns text else text in
  text.

(* ================================================================== *)
(** * The aggregator *)
(* ================================================================== *)

(** The scorer functions [search] may call. *)
Inductive scorer : Type :=
| ExactMatch
| ExactContainingMatch
| SingleWordMatch
| UniqueSingleWordMatch
| ConsecutiveWordSequenceMatch.

(** A run of [search]: the scorers it called, in the order of the calls,
    and how it completed. *)
Definition run (A : Type) : Type := (list scorer * completion A)%type.

Definition ret {A : Type} (a : A) : run A := ([], Return a).

Definition bind {A B : Type} (m : run A) (k : A -> run B) : run B :=
  match m with
  | (calls, Return a) => let '(calls', r) := k a in (calls ++ calls', r)
  | (calls, Throw e) => (calls, Throw e)
  end.

(** A call of a scorer: it is recorded, and completes as the scorer does. *)
Definition invoke {A : Type} (f : scorer) (result : completion A) : run A := ([f], result).

Notation "x <- m ;; k" := (bind m (fun x => k))
  (at level 61, m at next level, right associativity).

Definition calls {A : Type} (r : run A) : list scorer := fst r.
Definition outcome {A : Type} (r : run A) : completion A := snd r.

Section Search.

Variable hostRegExp : string -> option (string -> nat).

Definition search (inputs : SearchInputs) : run number :=
  let o := effectiveOptions (options inputs) in
  let score := 0%float in
  let formattedQuery :=
    getConfiguredText (query inputs) (ToBoolean (isCaseSensitive o))
                      (ToBoolean (shouldMatchPunctuation o))
                      (ToBoolean (shouldCollapseWhitespace o)) in
  let formattedBody :=
    getConfiguredText (body inputs) (ToBoolean (isCaseSensitive o))
                      (ToBoolean (shouldMatchPunctuation o))
                      (ToBoolean (shouldCollapseWhitespace o)) in
  score <-
    (if strictNeqZero (exactMatchPoints o) then
       s <- invoke ExactMatch (Return (getExactMatchScore formattedQuery formattedBody)) ;;
       ret (score + ToNumber (exactMatchPoints o) * s)%float
     else ret score) ;;
  score <-
    (if strictNeqZero (exactContainingMatchPoints o) then
       n <- invoke ExactContainingMatch
                   (getExactContainingMatchScore hostRegExp formattedQuery formattedBody) ;;
       ret (score + ToNumber (exactContainingMatchPoints o) * of_nat n)%float
     else ret score) ;;
  let queryWords :=
    getWords formattedQuery (ToBoolean (shouldMatchWhitespaceAndPunctuation o))
             (ToBoolean (shouldMatchPunctuation o)) in
  let bodyWords :=
    getWords formattedBody (ToBoolean (shouldMatchWhitespaceAndPunctuation o))
             (ToBoolean (shouldMatchPunctuation o)) in
  score <-
    (if strictNeqZero (singleWordMatchPoints o)
        && strictNeqZero (singleWordMatchLengthMultiplier o) then
       s <- invoke SingleWordMatch
                   (Return (getSingleWordMatchScore
                              queryWords bodyWords
                              (ToNumber (singleWordMatchLengthMultiplier o)))) ;;
       ret (score + ToNumber (singleWordMatchPoints o) * s)%float
     else ret score) ;;
  score <-
    (if strictNeqZero (uniqueSingleWordMatchPoints o)
        && strictNeqZero (uniqueSingleWordMatchLengthMultiplier o) then
       s <- invoke UniqueSingleWordMatch
                   (Return (getUniqueSingleWordMatchScore
                              queryWords bodyWords
                              (ToNumber (uniqueSingleWordMatchLengthMultiplier o)))) ;;
       ret (score + ToNumber (uniqueSingleWordMatchPoints o) * s)%float
     else ret score) ;;
  score <-
    (if (strictNeqZero (consecutiveWordMatchPoints o)
         && strictNeqZero (consecutiveWordMatchLengthMultiplier o))
        || (strictNeqZero (consecutiveWordSequenceMatchPoints o)
            && strictNeqZero (consecutiveWordSequenceLengthMultiplier o)) then
       r <- invoke ConsecutiveWordSequenceMatch
                   (getConsecutiveWordSequenceMatchScore
                      queryWords bodyWords
                      (ToNumber (consecutiveWordMatchLengthMultiplier o))
                      (ToNumber (consecutiveWordSequenceLengthMultiplier o))) ;;
       let score := (score + ToNumber (consecutiveWordMatchPoints o) *
                             consecutiveWordScore r)%float in
       let score := (score + ToNumber (consecutiveWordSequenceMatchPoints o) *
                             consecutiveWordSequenceScore r)%float in
       ret score
     else ret score) ;;
  ret score.

End Search.

(* ================================================================== *)
(** * Notions of the specification *)
(* ================================================================== *)

(** Every code unit of the string satisfies [p]. *)
Fixpoint forallChars (p : ascii -> bool) (s : string) : bool :=
  match s with
  | EmptyString => true
  | String c rest => p c && forallChars p rest
  end.


(** The maximal runs of non-white-space characters of a text, from left to
    right, in the words of the specification: a character that is no white
    space starts a run of its own when the text ends or a white space
    follows, and else joins the run that starts behind it. *)
Fixpoint maximalNonSpaceRuns (s : string) : list string :=
  match s with
  | EmptyString => []
  | String c rest =>
      if isWhiteSpace c then maximalNonSpaceRuns rest
      else if startsWithWhiteSpace rest then String c EmptyString :: maximalNonSpaceRuns rest
      else
        match maximalNonSpaceRuns rest with
        | run :: runs => String c run :: runs
        | [] => [String c EmptyString]
        end
  end.


(** A code unit outside a character class. *)
Definition outside (members : string) (c : ascii) : bool := negb (charIn c members).

(** What the spread does at a key: an own property of the override, with
    whatever value, takes the place of the default. *)
Definition overwrittenAtOwnKeys (A : Type) (default : A) (override : property A)
    (effective : option A) : Prop :=
  match override with
  | Absent => effective = Some default
  | Own v => effective = v
  end.

(** The reading in which a key that is present with the value [undefined]
    falls back to the default as an absent key does. *)
Definition undefinedFallsBack (A : Type) (default : A) (override : property A)
    (effective : option A) : Prop :=
  match override with
  | Absent | Own None => effective = Some default
  | Own (Some v) => effective = Some v
  end.

(** A host whose engine rejects every pattern that has a syntax character.
    The examples below use patterns without one, on which no host is
    asked. *)
Definition rejectingHost : string -> option (string -> nat) := fun _ => None.

(** The override [{ exactMatchPoints: undefined }]. *)
Definition exactMatchPointsUndefined : PartialSearchOptions := {|
  exactMatchPoints := Own None;
  exactContainingMatchPoints := Absent;
  singleWordMatchPoints := Absent;
  singleWordMatchLengthMultiplier := Absent;
  uniqueSingleWordMatchPoints := Absent;
  uniqueSingleWordMatchLengthMultiplier := Absent;
  consecutiveWordMatchPoints := Absent;
  consecutiveWordMatchLengthMultiplier := Absent;
  consecutiveWordSequenceMatchPoints := Absent;
  consecutiveWordSequenceLengthMultiplier := Absent;
  isCaseSensitive := Absent;
  shouldMatchPunctuation := Absent;
  shouldMatchWhitespaceAndPunctuation := Absent;
  shouldCollapseWhitespace := Absent
|}.

(** The number of body words equal to a query word ([undefined] equals
    none of them). *)
Definition occurrences (bodyWords : list string) (queryWord : option string) : nat :=
  match queryWord with
  | Some w => count_occ string_dec bodyWords w
  | None => 0
  end.

(** The comparison of iteration [k] of the inner loop when no earlier
    iteration broke: the run is [k] words long then, so the body word
    read is the one at [k + k]. *)
Definition agree (queryWords bodyWords : list string) (firstQueryWord k : nat) : bool :=
  strictEq (at_ queryWords (firstQueryWord + k)) (at_ bodyWords (k + k)).

(** The characters of the body words at [0], [2], ..., [2 (k - 1)]. *)
Fixpoint runLength (bodyWords : list string) (k : nat) : nat :=
  match k with
  | O => 0
  | S k' =>
      runLength bodyWords k' +
      match at_ bodyWords (k' + k') with
      | Some w => String.length w
      | None => 0
      end
  end.

(** The maxima after a break at iteration [k]. *)
Definition recorded (bodyWords : list string) (k : nat) (best : maxima) : maxima :=
  {| mostConsecutiveWords := Nat.max (mostConsecutiveWords best) k;
     longestConsecutiveWordSequence :=
       Nat.max (longestConsecutiveWordSequence best) (runLength bodyWords k) |}.

(** ** Numbers *)

(** A number that is not below zero: a zero of either sign, a positive
    number, the positive infinity or [NaN]. *)
Definition notNegative (x : number) : bool := negb (x <? 0)%float.

(** The sign of a value of the specification of the arithmetic is not
    minus. *)
Definition signIsPlus (x : spec_float) : bool :=
  match x with
  | S754_zero _ | S754_nan => true
  | S754_infinity s | S754_finite s _ _ => negb s
  end.

(** A property of the ten numeric keys. *)
Definition everyNumber (F : Type -> Type) (P : F number -> Prop) (o : Options F) : Prop :=
  P (exactMatchPoints o) /\
  P (exactContainingMatchPoints o) /\
  P (singleWordMatchPoints o) /\
  P (singleWordMatchLengthMultiplier o) /\
  P (uniqueSingleWordMatchPoints o) /\
  P (uniqueSingleWordMatchLengthMultiplier o) /\
  P (consecutiveWordMatchPoints o) /\
  P (consecutiveWordMatchLengthMultiplier o) /\
  P (consecutiveWordSequenceMatchPoints o) /\
  P (consecutiveWordSequenceLengthMultiplier o).

(** An options record whose numeric fields are not negative: every
    numeric key it has holds a number [x] with [0 <= x]. *)
Definition nonNegativeKey (k : property number) : Prop :=
  match k with
  | Absent => True
  | Own (Some x) => (0 <=? x)%float = true
  | Own None => False
  end.

Definition nonNegativeOptions (options : option PartialSearchOptions) : Prop :=
  match options with
  | Some o => everyNumber nonNegativeKey o
  | None => True
  end.

Definition nonNegativeValue (v : option number) : Prop :=
  match v with
  | Some x => (0 <=? x)%float = true
  | None => False
  end.

(** ** The strategies and their switches *)

(** The guard under which [search] calls a scorer. *)
Definition enabled (o : EffectiveOptions) (f : scorer) : bool :=
  match f with
  | ExactMatch => strictNeqZero (exactMatchPoints o)
  | ExactContainingMatch => strictNeqZero (exactContainingMatchPoints o)
  | SingleWordMatch =>
      strictNeqZero (singleWordMatchPoints o)
      && strictNeqZero (singleWordMatchLengthMultiplier o)
  | UniqueSingleWordMatch =>
      strictNeqZero (uniqueSingleWordMatchPoints o)
      && strictNeqZero (uniqueSingleWordMatchLengthMultiplier o)
  | ConsecutiveWordSequenceMatch =>
      (strictNeqZero (consecutiveWordMatchPoints o)
       && strictNeqZero (consecutiveWordMatchLengthMultiplier o))
      || (strictNeqZero (consecutiveWordSequenceMatchPoints o)
          && strictNeqZero (consecutiveWordSequenceLengthMultiplier o))
  end.

(** The scorers in the order [search] comes to them. *)
Definition scorers : list scorer :=
  [ExactMatch; ExactContainingMatch; SingleWordMatch; UniqueSingleWordMatch;
   ConsecutiveWordSequenceMatch].

(** The six strategies of the weighted sum. *)
Inductive strategy : Type :=
| Exact
| ExactContaining
| SingleWord
| UniqueSingleWord
| ConsecutiveWord
| ConsecutiveWordSequence.

(** The scorer that computes the score of a strategy: the two consecutive
    strategies share one. *)
Definition scorerOf (s : strategy) : scorer :=
  match s with
  | Exact => ExactMatch
  | ExactContaining => ExactContainingMatch
  | SingleWord => SingleWordMatch
  | UniqueSingleWord => UniqueSingleWordMatch
  | ConsecutiveWord | ConsecutiveWordSequence => ConsecutiveWordSequenceMatch
  end.

(** The point weight of the strategy, or the length multiplier it needs, is
    exactly zero. *)
Definition switchedOff (o : EffectiveOptions) (s : strategy) : bool :=
  match s with
  | Exact => negb (strictNeqZero (exactMatchPoints o))
  | ExactContaining => negb (strictNeqZero (exactContainingMatchPoints o))
  | SingleWord =>
      negb (strictNeqZero (singleWordMatchPoints o))
      || negb (strictNeqZero (singleWordMatchLengthMultiplier o))
  | UniqueSingleWord =>
      negb (strictNeqZero (uniqueSingleWordMatchPoints o))
      || negb (strictNeqZero (uniqueSingleWordMatchLengthMultiplier o))
  | ConsecutiveWord =>
      negb (strictNeqZero (consecutiveWordMatchPoints o))
      || negb (strictNeqZero (consecutiveWordMatchLengthMultiplier o))
  | ConsecutiveWordSequence =>
      negb (strictNeqZero (consecutiveWordSequenceMatchPoints o))
      || negb (strictNeqZero (consecutiveWordSequenceLengthMultiplier o))
  end.

(** The six point weights are all zero. *)
Definition allPointsZero (o : EffectiveOptions) : bool :=
  negb (strictNeqZero (exactMatchPoints o))
  && negb (strictNeqZero (exactContainingMatchPoints o))
  && negb (strictNeqZero (singleWordMatchPoints o))
  && negb (strictNeqZero (uniqueSingleWordMatchPoints o))
  && negb (strictNeqZero (consecutiveWordMatchPoints o))
  && negb (strictNeqZero (consecutiveWordSequenceMatchPoints o)).

(** The claim on skipping, as it is stated: a strategy that is switched
    off does not have its scorer called. *)
Definition skipsEverySwitchedOffStrategy (o : EffectiveOptions) (r : run number) : Prop :=
  forall s : strategy, switchedOff o s = true -> ~ In (scorerOf s) (calls r).

(** The override [{ consecutiveWordMatchPoints: 0 }]. *)
Definition consecutiveWordMatchPointsZero : PartialSearchOptions := {|
  exactMatchPoints := Absent;
  exactContainingMatchPoints := Absent;
  singleWordMatchPoints := Absent;
  singleWordMatchLengthMultiplier := Absent;
  uniqueSingleWordMatchPoints := Absent;
  uniqueSingleWordMatchLengthMultiplier := Absent;
  consecutiveWordMatchPoints := Own (Some 0%float);
  consecutiveWordMatchLengthMultiplier := Absent;
  consecutiveWordSequenceMatchPoints := Absent;
  consecutiveWordSequenceLengthMultiplier := Absent;
  isCaseSensitive := Absent;
  shouldMatchPunctuation := Absent;
  shouldMatchWhitespaceAndPunctuation := Absent;
  shouldCollapseWhitespace := Absent
|}.

(** The override with the six point weights at 0. *)
Definition allPointWeightsZero : PartialSearchOptions := {|
  exactMatchPoints := Own (Some 0%float);
  exactContainingMatchPoints := Own (Some 0%float);
  singleWordMatchPoints := Own (Some 0%float);
  singleWordMatchLengthMultiplier := Absent;
  uniqueSingleWordMatchPoints := Own (Some 0%float);
  uniqueSingleWordMatchLengthMultiplier := Absent;
  consecutiveWordMatchPoints := Own (Some 0%float);
  consecutiveWordMatchLengthMultiplier := Absent;
  consecutiveWordSequenceMatchPoints := Own (Some 0%float);
  consecutiveWordSequenceLengthMultiplier := Absent;
  isCaseSensitive := Absent;
  shouldMatchPunctuation := Absent;
  shouldMatchWhitespaceAndPunctuation := Absent;
  shouldCollapseWhitespace := Absent
|}.

(** The override [{ consecutiveWordSequenceMatchPoints: 0,
    consecutiveWordSequenceLengthMultiplier: 2 ** 1023 }]: both numbers are
    finite and not negative. *)
Definition hugeSequenceMultiplier : PartialSearchOptions := {|
  exactMatchPoints := Absent;
  exactContainingMatchPoints := Absent;
  singleWordMatchPoints := Absent;
  singleWordMatchLengthMultiplier := Absent;
  uniqueSingleWordMatchPoints := Absent;
  uniqueSingleWordMatchLengthMultiplier := Absent;
  consecutiveWordMatchPoints := Absent;
  consecutiveWordMatchLengthMultiplier := Absent;
  consecutiveWordSequenceMatchPoints := Own (Some 0%float);
  consecutiveWordSequenceLengthMultiplier := Own (Some 0x1p1023%float);
  isCaseSensitive := Absent;
  shouldMatchPunctuation := Absent;
  shouldMatchWhitespaceAndPunctuation := Absent;
  shouldCollapseWhitespace := Absent
|}.

(** ** The dampening factor *)

(** The five stop words. *)
Definition stopWords : list string := ["the"; "a"; "of"; "I"; "and"].

(** The punctuation and symbol characters of Basic Latin: the thirty-two
    graphic characters that are no letter, no digit and not the space. *)
Definition isPunctuationOrSymbol (c : ascii) : bool :=
  between 33 47 c || between 58 64 c || between 91 96 c || between 123 126 c.

(** The dampening factor in the words of the claim: 0.1 for a token of one
    punctuation or symbol character, 0.5 for the five stop words, 1
    otherwise. *)
Definition dampeningAsClaimed (word : string) : number :=
  match word with
  | String c EmptyString =>
      if isPunctuationOrSymbol c then 0x1.999999999999ap-4%float
      else if existsb (String.eqb word) stopWords then 0.5%float else 1%float
  | _ => if existsb (String.eqb word) stopWords then 0.5%float else 1%float
  end.

(** The number of body words equal to a word, as the total variant counts
    them. *)
Definition countEqual (bodyWords : list string) (word : string) : nat :=
  List.length (filter (fun bodyWord => String.eqb bodyWord word) bodyWords).

(** ** Overrides of the examples *)

(** The override that leaves the exact-containing strategy alone switched
    on: the five other point weights are 0. *)
Definition onlyExactContaining : PartialSearchOptions := {|
  exactMatchPoints := Own (Some 0%float);
  exactContainingMatchPoints := Absent;
  singleWordMatchPoints := Own (Some 0%float);
  singleWordMatchLengthMultiplier := Absent;
  uniqueSingleWordMatchPoints := Own (Some 0%float);
  uniqueSingleWordMatchLengthMultiplier := Absent;
  consecutiveWordMatchPoints := Own (Some 0%float);
  consecutiveWordMatchLengthMultiplier := Absent;
  consecutiveWordSequenceMatchPoints := Own (Some 0%float);
  consecutiveWordSequenceLengthMultiplier := Absent;
  isCaseSensitive := Absent;
  shouldMatchPunctuation := Absent;
  shouldMatchWhitespaceAndPunctuation := Absent;
  shouldCollapseWhitespace := Absent
|}.

(** The override [{ shouldMatchWhitespaceAndPunctuation: false }]: the
    word-only mode of the tokenizer. *)
Definition wordOnlyMode : PartialSearchOptions := {|
  exactMatchPoints := Absent;
  exactContainingMatchPoints := Absent;
  singleWordMatchPoints := Absent;
  singleWordMatchLengthMultiplier := Absent;
  uniqueSingleWordMatchPoints := Absent;
  uniqueSingleWordMatchLengthMultiplier := Absent;
  consecutiveWordMatchPoints := Absent;
  consecutiveWordMatchLengthMultiplier := Absent;
  consecutiveWordSequenceMatchPoints := Absent;
  consecutiveWordSequenceLengthMultiplier := Absent;
  isCaseSensitive := Absent;
  shouldMatchPunctuation := Absent;
  shouldMatchWhitespaceAndPunctuation := Own (Some false);
  shouldCollapseWhitespace := Absent
|}.

(** The unique variant in the words of the claim: every distinct shared
    query token counts once. *)
Definition uniqueScoreAsClaimed (queryWords bodyWords : list string)
    (uniqueSingleWordMatchLengthMultiplier : number) : number :=
  fold_left
    (fun score word =>
       score +
       of_nat (String.length word) *
       uniqueSingleWordMatchLengthMultiplier *
       getCustomWordMultiplier word)%float
    (nodup string_dec (filter (fun element => includes bodyWords element) queryWords))
    0%float.

(** The scores of the consecutive scorer when its two maxima are 0. *)
Definition noConsecutiveMatch (wordMultiplier sequenceMultiplier : number)
    : consecutiveScores :=
  {| consecutiveWordScore := (of_nat 0 * wordMultiplier)%float;
     consecutiveWordSequenceScore := (of_nat 0 * sequenceMultiplier)%float |}.

(** The override [{ isCaseSensitive: true }]. *)
Definition caseSensitive : PartialSearchOptions := {|
  exactMatchPoints := Absent;
  exactContainingMatchPoints := Absent;
  singleWordMatchPoints := Absent;
  singleWordMatchLengthMultiplier := Absent;
  uniqueSingleWordMatchPoints := Absent;
  uniqueSingleWordMatchLengthMultiplier := Absent;
  consecutiveWordMatchPoints := Absent;
  consecutiveWordMatchLengthMultiplier := Absent;
  consecutiveWordSequenceMatchPoints := Absent;
  consecutiveWordSequenceLengthMultiplier := Absent;
  isCaseSensitive := Own (Some true);
  shouldMatchPunctuation := Absent;
  shouldMatchWhitespaceAndPunctuation := Absent;
  shouldCollapseWhitespace := Absent
|}.

(** ** The shape of the tokens of the default mode *)

(** A token made of word characters only (the empty token is one). *)
Definition isWordToken (t : string) : bool := forallChars isWordChar t.

(** The tokens alternate between word tokens and separators, as the split
    on [/(\W+)/] leaves them; [expectWord] tells the kind of the first one,
    and the last token is a word token. *)
Fixpoint alternates (expectWord : bool) (tokens : list string) : bool :=
  match tokens with
  | [] => negb expectWord
  | t :: rest => Bool.eqb (isWordToken t) expectWord && alternates (negb expectWord) rest
  end.

(** ** The texts and the tokens [search] works on *)

(** [formattedQuery] and [formattedBody]: the text as [search] normalizes
    it under the effective options. *)
Definition formatted (o : EffectiveOptions) (text : string) : string :=
  getConfiguredText text (ToBoolean (isCaseSensitive o))
                    (ToBoolean (shouldMatchPunctuation o))
                    (ToBoolean (shouldCollapseWhitespace o)).

(** [queryWords] and [bodyWords]: the tokens of the normalized text. *)
Definition wordsOf (o : EffectiveOptions) (text : string) : list string :=
  getWords (formatted o text) (ToBoolean (shouldMatchWhitespaceAndPunctuation o))
           (ToBoolean (shouldMatchPunctuation o)).

(** The pattern occurs in the subject. *)
Definition occursIn (pattern subject : string) : Prop :=
  exists before after : string, subject = (before ++ pattern ++ after)%string.

(** The code units of a string that satisfy [p], in order. *)
Fixpoint keepChars (p : ascii -> bool) (s : string) : string :=
  match s with
  | EmptyString => EmptyString
  | String c rest => if p c then String c (keepChars p rest) else keepChars p rest
  end.

Definition isNonSpace (c : ascii) : bool := negb (isWhiteSpace c).

(** What the consecutive scorer keeps between two start positions: the
    longest sequence is the length of the run of [mostConsecutiveWords]
    body words at [0], [2], [4], ..., and, unless it is empty, that run is
    read at some start position of the query. *)
Definition anchoredRun (queryWords bodyWords : list string) (best : maxima) : Prop :=
  longestConsecutiveWordSequence best = runLength bodyWords (mostConsecutiveWords best) /\
  (mostConsecutiveWords best = 0 \/
   exists firstQueryWord,
     forall k, k < mostConsecutiveWords best ->
               agree queryWords bodyWords firstQueryWord k = true /\
               at_ bodyWords (k + k) <> None).

(** ** The consecutive-sequence scorer, as the specification describes it *)

(** Iteration [k] of the inner scan goes on to the next one: the compared
    words are equal and the body word is there to take its length. *)
Definition goesOn (queryWords bodyWords : list string) (firstQueryWord k : nat) : bool :=
  agree queryWords bodyWords firstQueryWord k &&
  match at_ bodyWords (k + k) with
  | Some _ => true
  | None => false
  end.

(** The scan of one start position.  Its range has as many iterations as
    there are body words equal to the query word at the start position.
    When no iteration of the range stops, the maxima are left as they are;
    the first iteration that stops on a mismatch breaks and records the
    words and the characters read so far; one that stops on an agreement
    has no body word to take the length of. *)
Definition scanAsClaimed (queryWords bodyWords : list string) (firstQueryWord : nat)
    (best : maxima) : completion maxima :=
  let range := seq 0 (occurrences bodyWords (at_ queryWords firstQueryWord)) in
  match find (fun k => negb (goesOn queryWords bodyWords firstQueryWord k)) range with
  | None => Return best
  | Some m =>
      if agree queryWords bodyWords firstQueryWord m then Throw TypeError
      else Return (recorded bodyWords m best)
  end.

(** The scorer: the scans of the start positions [0], [1], ..., one for
    each query word, from maxima that are both 0; the two scores are the
    maxima times their multipliers. *)
Definition scorerAsClaimed (queryWords bodyWords : list string)
    (consecutiveWordMatchLengthMultiplier consecutiveWordSequenceLengthMultiplier : number)
    : completion consecutiveScores :=
  let scans :=
    fold_left
      (fun (sofar : completion maxima) (firstQueryWord : nat) =>
         match sofar with
         | Return best => scanAsClaimed queryWords bodyWords firstQueryWord best
         | Throw e => Throw e
         end)
      (seq 0 (List.length queryWords))
      (Return {| mostConsecutiveWords := 0; longestConsecutiveWordSequence := 0 |}) in
  match scans with
  | Return best =>
      Return {| consecutiveWordScore :=
                  (of_nat (mostConsecutiveWords best) *
                   consecutiveWordMatchLengthMultiplier)%float;
                consecutiveWordSequenceScore :=
                  (of_nat (longestConsecutiveWordSequence best) *
                   consecutiveWordSequenceLengthMultiplier)%float |}
  | Throw e => Throw e
  end.

(** ** The pieces of a split on the runs of non-word characters *)

(** A separator: a run of non-word characters that is not empty. *)
Definition isSeparator (t : string) : bool :=
  negb (String.eqb t EmptyString) && forallChars (fun c => negb (isWordChar c)) t.

(** The tokens are runs of word characters with a separator between every
    two of them; a run of word characters is empty at most when it is the
    first token ([first]) or the last one. *)
Fixpoint wellSplit (first : bool) (tokens : list string) : bool :=
  match tokens with
  | [] => false
  | [w] => isWordToken w
  | w :: s :: rest =>
      isWordToken w && (first || negb (String.eqb w EmptyString)) &&
      isSeparator s && wellSplit false rest
  end.

(** ** The matches of a pattern that matches itself *)

(** The occurrence of the pattern behind [before] is the first one of the
    subject [before ++ pattern ++ after]. *)
Definition firstOccurrence (pattern before after : string) : Prop :=
  forall before' after' : string,
    (before ++ pattern ++ after)%string = (before' ++ pattern ++ after')%string ->
    String.length before <= String.length before'.

(** The number of matches found from left to right without overlap: none
    when the pattern does not occur; else the first occurrence is one, and
    the search goes on in what is behind it. *)
Inductive leftmostMatches (pattern : string) : string -> nat -> Prop :=
| noMatch (subject : string) :
    ~ occursIn pattern subject -> leftmostMatches pattern subject 0
| nextMatch (before after : string) (n : nat) :
    firstOccurrence pattern before after ->
    leftmostMatches pattern after n ->
    leftmostMatches pattern (before ++ pattern ++ after) (S n).

Unset Implicit Arguments.

(* ================================================================== *)
(** * The tokenizer in word-only mode *)
(* ================================================================== *)

Lemma append_assoc (a b c : string) : ((a ++ b) ++ c = a ++ (b ++ c))%string.
Proof. induction a as [|x a IH]; simpl; [reflexivity | now rewrite IH]. Qed.

Lemma append_empty_r (a : string) : (a ++ EmptyString)%string = a.
Proof. induction a as [|x a IH]; simpl; [reflexivity | now rewrite IH]. Qed.

(** The scan with a run in progress, in terms of the scan from scratch. *)
Lemma nonSpaceFrom_Some (s : string) : forall t : string,
  nonSpaceFrom (Some t) s =
  if startsWithWhiteSpace s then t :: nonSpaceFrom None s
  else match nonSpaceFrom None s with
       | run :: runs => (t ++ run)%string :: runs
       | [] => [t]
       end.
Proof.
  induction s as [|c rest IH]; intro t; simpl.
  - reflexivity.
  - destruct (isWhiteSpace c) eqn:Hc; [reflexivity|].
    rewrite IH, (IH (String c EmptyString)). unfold snoc.
    destruct (startsWithWhiteSpace rest); [reflexivity|].
    destruct (nonSpaceFrom None rest) as [|run runs]; [reflexivity|].
    rewrite append_assoc. reflexivity.
Qed.

Lemma nonSpaceFrom_maximalNonSpaceRuns (s : string) :
  nonSpaceFrom None s = maximalNonSpaceRuns s.
Proof.
  induction s as [|c rest IH]; simpl.
  - reflexivity.
  - destruct (isWhiteSpace c) eqn:Hc; [exact IH|].
    rewrite nonSpaceFrom_Some, IH.
    destruct (startsWithWhiteSpace rest); [reflexivity|].
    destruct (maximalNonSpaceRuns rest); reflexivity.
Qed.

Lemma orEmpty_matchNonSpace (s : string) :
  orEmpty (matchNonSpace s) = nonSpaceFrom None s.
Proof.
  unfold matchNonSpace. destruct (nonSpaceFrom None s); reflexivity.
Qed.

(** C10.  In word-only mode the tokens are the matches of [/\S+/g], or no
    token when there is no match, whatever [shouldMatchPunctuation] is: the
    filtered array of that branch is dropped.  These matches are the
    maximal runs of non-white-space characters of the text. *)
Theorem getWords_word_only (text : string) (shouldMatchPunctuation : bool) :
  getWords text false shouldMatchPunctuation = orEmpty (matchNonSpace text) /\
  getWords text false shouldMatchPunctuation = maximalNonSpaceRuns text /\
  getWords text false true = getWords text false false.
Proof.
  unfold getWords, discard. repeat split.
  rewrite orEmpty_matchNonSpace. apply nonSpaceFrom_maximalNonSpaceRuns.
Qed.

(* ================================================================== *)
(** * The normalizer *)
(* ================================================================== *)




Lemma forallChars_append (p : ascii -> bool) (a b : string) :
  forallChars p (a ++ b) = forallChars p a && forallChars p b.
Proof.
  induction a as [|c a IH]; simpl; [reflexivity|].
  now rewrite IH, andb_assoc.
Qed.

Lemma replaceClass_forallChars (p : ascii -> bool) (members by_ s : string) :
  forallChars p by_ = true -> forallChars p s = true ->
  forallChars p (replaceClass members by_ s) = true.
Proof.
  intro Hby. induction s as [|c rest IH]; simpl; [reflexivity|].
  intro H. apply andb_prop in H. destruct H as [Hc Hrest].
  destruct (charIn c members).
  - rewrite forallChars_append, Hby. now apply IH.
  - simpl. rewrite Hc. now apply IH.
Qed.

Lemma replaceClass_outside (members by_ s : string) :
  forallChars (outside members) by_ = true ->
  forallChars (outside members) (replaceClass members by_ s) = true.
Proof.
  intro Hby. induction s as [|c rest IH]; simpl; [reflexivity|].
  destruct (charIn c members) eqn:Hc.
  - now rewrite forallChars_append, Hby.
  - simpl. unfold outside at 1. now rewrite Hc.
Qed.


Lemma collapseFrom_forallChars (p : ascii -> bool) (s : string) :
  p " "%char = true -> forallChars p s = true ->
  forall inMatch : bool, forallChars p (collapseFrom inMatch s) = true.
Proof.
  intro Hsp. induction s as [|c rest IH]; simpl; [reflexivity|].
  intros H inMatch. apply andb_prop in H. destruct H as [Hc Hrest].
  destruct inMatch.
  - destruct (isWhiteSpace c); simpl; [|rewrite Hc]; now apply IH.
  - destruct (isWhiteSpace c && startsWithWhiteSpace rest); simpl;
      [rewrite Hsp | rewrite Hc]; now apply IH.
Qed.







(* ================================================================== *)
(** * The options *)
(* ================================================================== *)

(** C5, as the code has it.  The effective configuration is the default
    record overwritten at every own key of the override, with the value
    the override holds there, [undefined] included; an absent key keeps
    its default, and nothing else is checked or changed. *)
Theorem effectiveOptions_spread (options : option PartialSearchOptions) :
  everyKey overwrittenAtOwnKeys defaultSearchOptions
           match options with
           | Some o => o
           | None => noOptions
           end
           (effectiveOptions options).
Proof.
  unfold effectiveOptions, everyKey, overwrittenAtOwnKeys, spread, spreadKey.
  destruct options as [o|]; simpl.
  - destruct o as [k1 k2 k3 k4 k5 k6 k7 k8 k9 k10 k11 k12 k13 k14]; simpl.
    repeat split;
      match goal with
      | |- match ?k with _ => _ end => destruct k; reflexivity
      end.
  - repeat split.
Qed.

(** C5, against the claim.  With the override [{ exactMatchPoints:
    undefined }] the key does not keep its default 70: it is [undefined]
    in the effective configuration, and the score of the query [x] on the
    body [x] is [NaN]. *)
Lemma undefined_key_overwrites_default :
  ~ everyKey undefinedFallsBack defaultSearchOptions exactMatchPointsUndefined
             (effectiveOptions (Some exactMatchPointsUndefined)) /\
  exactMatchPoints (effectiveOptions (Some exactMatchPointsUndefined)) = None /\
  outcome (search rejectingHost
                  {| query := "x"; body := "x";
                     options := Some exactMatchPointsUndefined |}) = Return NaN.
Proof.
  split; [|split].
  - intros [H _]. discriminate H.
  - reflexivity.
  - vm_compute. reflexivity.
Qed.

(* ================================================================== *)
(** * The consecutive-sequence scorer *)
(* ================================================================== *)

Lemma filter_mapWithIndex_length (queryWord : option string) (bodyWords : list string) :
  forall index : nat,
  List.length
    (filter stringIsTruthy
       (mapWithIndex
          (fun bodyWord i => if strictEq (Some bodyWord) queryWord then Index i else Empty)
          index bodyWords)) =
  occurrences bodyWords queryWord.
Proof.
  induction bodyWords as [|bw rest IH]; intro index; simpl.
  - destruct queryWord; reflexivity.
  - destruct queryWord as [w|]; simpl.
    + destruct (string_dec bw w) as [E|E].
      * apply String.eqb_eq in E. rewrite E. simpl. f_equal. apply (IH (S index)).
      * apply String.eqb_neq in E. rewrite E. simpl. apply (IH (S index)).
    + apply (IH (S index)).
Qed.

(** The bound of the inner loop is the number of body words equal to the
    query word at the start position. *)
Lemma matchIndexes_length (bodyWords : list string) (queryWord : option string) :
  List.length (matchIndexes bodyWords queryWord) = occurrences bodyWords queryWord.
Proof. apply filter_mapWithIndex_length. Qed.

Lemma runLength_step (bodyWords : list string) (k : nat) (w : string) :
  at_ bodyWords (k + k) = Some w ->
  runLength bodyWords (S k) = runLength bodyWords k + String.length w.
Proof. intro H. simpl. now rewrite H. Qed.

(** The inner loop from iteration [k] on, no earlier iteration having
    broken: it goes through its range when every comparison agrees on a
    body word in range. *)
Lemma scanBody_through (queryWords bodyWords : list string) (firstQueryWord : nat)
    (best : maxima) (remaining : nat) :
  forall k : nat,
  (forall j, k <= j < k + remaining ->
             agree queryWords bodyWords firstQueryWord j = true /\
             at_ bodyWords (j + j) <> None) ->
  scanBody queryWords bodyWords firstQueryWord remaining k k (runLength bodyWords k) best =
  Return best.
Proof.
  induction remaining as [|r IH]; intros k H; simpl; [reflexivity|].
  destruct (H k ltac:(lia)) as [Hagree Hdef]. unfold agree in Hagree.
  rewrite Hagree. simpl.
  destruct (at_ bodyWords (k + k)) as [w|] eqn:Hw; [|congruence].
  rewrite <- (runLength_step _ _ _ Hw). apply IH.
  intros j Hj. apply H. lia.
Qed.

(** The inner loop breaks at the first comparison that disagrees and
    records the run read so far. *)
Lemma scanBody_break (queryWords bodyWords : list string) (firstQueryWord : nat)
    (best : maxima) (remaining : nat) :
  forall k m : nat,
  k <= m < k + remaining ->
  (forall j, k <= j < m ->
             agree queryWords bodyWords firstQueryWord j = true /\
             at_ bodyWords (j + j) <> None) ->
  agree queryWords bodyWords firstQueryWord m = false ->
  scanBody queryWords bodyWords firstQueryWord remaining k k (runLength bodyWords k) best =
  Return (recorded bodyWords m best).
Proof.
  induction remaining as [|r IH]; intros k m Hm H Hbreak; [lia|]. simpl.
  destruct (Nat.eq_dec k m) as [->|Hne].
  - unfold agree in Hbreak. rewrite Hbreak. reflexivity.
  - destruct (H k ltac:(lia)) as [Hagree Hdef]. unfold agree in Hagree.
    rewrite Hagree. simpl.
    destruct (at_ bodyWords (k + k)) as [w|] eqn:Hw; [|congruence].
    rewrite <- (runLength_step _ _ _ Hw). apply IH; [lia | | exact Hbreak].
    intros j Hj. apply H. lia.
Qed.

(** The inner loop throws at the first comparison that agrees on a body
    word out of range: both sides are [undefined] there. *)
Lemma scanBody_throw (queryWords bodyWords : list string) (firstQueryWord : nat)
    (best : maxima) (remaining : nat) :
  forall k m : nat,
  k <= m < k + remaining ->
  (forall j, k <= j < m ->
             agree queryWords bodyWords firstQueryWord j = true /\
             at_ bodyWords (j + j) <> None) ->
  agree queryWords bodyWords firstQueryWord m = true ->
  at_ bodyWords (m + m) = None ->
  scanBody queryWords bodyWords firstQueryWord remaining k k (runLength bodyWords k) best =
  Throw TypeError.
Proof.
  induction remaining as [|r IH]; intros k m Hm H Hagree Hnone; [lia|]. simpl.
  destruct (Nat.eq_dec k m) as [->|Hne].
  - unfold agree in Hagree. rewrite Hagree, Hnone. reflexivity.
  - destruct (H k ltac:(lia)) as [Hk Hdef]. unfold agree in Hk.
    rewrite Hk. simpl.
    destruct (at_ bodyWords (k + k)) as [w|] eqn:Hw; [|congruence].
    rewrite <- (runLength_step _ _ _ Hw). apply IH with (m := m); [lia | | assumption ..].
    intros j Hj. apply H. lia.
Qed.

(** Whatever the inner loop returns is the maxima it got or the record of
    a break. *)
Lemma scanBody_returns (queryWords bodyWords : list string) (firstQueryWord : nat)
    (best : maxima) (remaining : nat) :
  forall (k : nat) (result : maxima),
  scanBody queryWords bodyWords firstQueryWord remaining k k (runLength bodyWords k) best =
  Return result ->
  result = best \/
  exists m, k <= m < k + remaining /\
            agree queryWords bodyWords firstQueryWord m = false /\
            result = recorded bodyWords m best.
Proof.
  induction remaining as [|r IH]; intros k result; simpl.
  - intro H. left. congruence.
  - destruct (strictEq (at_ queryWords (firstQueryWord + k)) (at_ bodyWords (k + k)))
      eqn:Hagree; simpl.
    + destruct (at_ bodyWords (k + k)) as [w|] eqn:Hw; [|discriminate].
      rewrite <- (runLength_step _ _ _ Hw). intro H.
      destruct (IH _ _ H) as [E | (m & Hm & Hbreak & E)]; [now left|].
      right. exists m. split; [lia | now split].
    + intro H. right. exists k. split; [lia|]. split; [exact Hagree|].
      unfold recorded. congruence.
Qed.

(** The inner loop is the search for the first iteration of its range
    that does not go on. *)
Lemma scanBody_find (queryWords bodyWords : list string) (firstQueryWord : nat)
    (best : maxima) (remaining : nat) :
  forall k : nat,
  scanBody queryWords bodyWords firstQueryWord remaining k k (runLength bodyWords k) best =
  match find (fun j => negb (goesOn queryWords bodyWords firstQueryWord j))
             (seq k remaining) with
  | None => Return best
  | Some m =>
      if agree queryWords bodyWords firstQueryWord m then Throw TypeError
      else Return (recorded bodyWords m best)
  end.
Proof.
  induction remaining as [|r IH]; intro k; [reflexivity|].
  cbn [scanBody seq find].
  change (strictEq (at_ queryWords (firstQueryWord + k)) (at_ bodyWords (k + k)))
    with (agree queryWords bodyWords firstQueryWord k).
  unfold goesOn at 1.
  destruct (agree queryWords bodyWords firstQueryWord k) eqn:Hagree; cbn [negb andb].
  - destruct (at_ bodyWords (k + k)) as [w|] eqn:Hw; cbn [negb].
    + rewrite <- (runLength_step _ _ _ Hw). apply IH.
    + now rewrite Hagree.
  - now rewrite Hagree.
Qed.

Lemma scanBody_scanAsClaimed (queryWords bodyWords : list string) (firstQueryWord : nat)
    (best : maxima) :
  scanBody queryWords bodyWords firstQueryWord
           (List.length (matchIndexes bodyWords (at_ queryWords firstQueryWord))) 0 0 0 best =
  scanAsClaimed queryWords bodyWords firstQueryWord best.
Proof.
  rewrite matchIndexes_length. unfold scanAsClaimed.
  apply (scanBody_find queryWords bodyWords firstQueryWord best _ 0).
Qed.

Lemma fold_left_Throw (queryWords bodyWords : list string) (e : exception)
    (positions : list nat) :
  fold_left
    (fun (sofar : completion maxima) (firstQueryWord : nat) =>
       match sofar with
       | Return best => scanAsClaimed queryWords bodyWords firstQueryWord best
       | Throw e' => Throw e'
       end) positions (Throw e) = Throw e.
Proof. induction positions as [|i rest IH]; [reflexivity | exact IH]. Qed.

(** The outer loop is the sequence of the scans of its start positions. *)
Lemma scanQuery_fold (queryWords bodyWords : list string) (remaining : nat) :
  forall (firstQueryWord : nat) (best : maxima),
  scanQuery queryWords bodyWords remaining firstQueryWord best =
  fold_left
    (fun (sofar : completion maxima) (i : nat) =>
       match sofar with
       | Return best' => scanAsClaimed queryWords bodyWords i best'
       | Throw e => Throw e
       end) (seq firstQueryWord remaining) (Return best).
Proof.
  induction remaining as [|r IH]; intros i best; [reflexivity|].
  cbn [scanQuery seq fold_left]. rewrite scanBody_scanAsClaimed.
  destruct (scanAsClaimed queryWords bodyWords i best) as [best'|e].
  - apply IH.
  - symmetry. apply fold_left_Throw.
Qed.

(** C2.  The scorer is the scorer the specification describes: from maxima
    that are both 0 it scans the start positions of the query one after
    the other and returns the maxima times the multipliers.  At every
    start position [firstQueryWord] the inner loop runs afresh, bounded by
    the number of body words equal to the query word there (their count,
    not their positions).  Iteration [k] compares the query word at
    [firstQueryWord + k] with the body word at [k + k], the counter plus
    the run length.  When every comparison in the range agrees, the maxima
    come back as they were; a break at iteration [m] records [m] and the
    characters read; and the loop returns nothing else.  (It throws when a
    comparison agrees on a body word out of range.) *)
Theorem consecutive_scan_bounded_by_count (queryWords bodyWords : list string)
    (firstQueryWord : nat) (best : maxima) :
  let bound := List.length (matchIndexes bodyWords (at_ queryWords firstQueryWord)) in
  let scan := scanBody queryWords bodyWords firstQueryWord bound 0 0 0 best in
  (forall wordMultiplier sequenceMultiplier : number,
     getConsecutiveWordSequenceMatchScore queryWords bodyWords wordMultiplier
                                          sequenceMultiplier =
     scorerAsClaimed queryWords bodyWords wordMultiplier sequenceMultiplier) /\
  scan = scanAsClaimed queryWords bodyWords firstQueryWord best /\
  bound = occurrences bodyWords (at_ queryWords firstQueryWord) /\
  (forall remaining,
     scanQuery queryWords bodyWords (S remaining) firstQueryWord best =
     match scan with
     | Return best' => scanQuery queryWords bodyWords remaining (S firstQueryWord) best'
     | Throw e => Throw e
     end) /\
  ((forall k, k < bound ->
              agree queryWords bodyWords firstQueryWord k = true /\
              at_ bodyWords (k + k) <> None) ->
   scan = Return best) /\
  (forall m, m < bound ->
             (forall k, k < m ->
                        agree queryWords bodyWords firstQueryWord k = true /\
                        at_ bodyWords (k + k) <> None) ->
             agree queryWords bodyWords firstQueryWord m = false ->
             scan = Return (recorded bodyWords m best)) /\
  (forall result, scan = Return result ->
                  result = best \/
                  exists m, m < bound /\
                            agree queryWords bodyWords firstQueryWord m = false /\
                            result = recorded bodyWords m best) /\
  (forall m, m < bound ->
             (forall k, k < m ->
                        agree queryWords bodyWords firstQueryWord k = true /\
                        at_ bodyWords (k + k) <> None) ->
             agree queryWords bodyWords firstQueryWord m = true ->
             at_ bodyWords (m + m) = None ->
             scan = Throw TypeError).
Proof.
  intros bound scan.
  split.
  { intros wordMultiplier sequenceMultiplier.
    unfold getConsecutiveWordSequenceMatchScore, scorerAsClaimed.
    now rewrite scanQuery_fold. }
  split; [apply scanBody_scanAsClaimed|].
  split; [apply matchIndexes_length|].
  split; [reflexivity|]. split; [|split; [|split]].
  - intro H. apply (scanBody_through queryWords bodyWords firstQueryWord best bound 0).
    intros j Hj. apply H. lia.
  - intros m Hm H Hbreak.
    apply (scanBody_break queryWords bodyWords firstQueryWord best bound 0 m);
      [lia | | exact Hbreak].
    intros j Hj. apply H. lia.
  - intros result H.
    destruct (scanBody_returns queryWords bodyWords firstQueryWord best bound 0 result H)
      as [E | (m & Hm & Hbreak & E)]; [now left|].
    right. exists m. split; [lia | now split].
  - intros m Hm H Hagree Hnone.
    apply (scanBody_throw queryWords bodyWords firstQueryWord best bound 0 m);
      [lia | | exact Hagree | exact Hnone].
    intros j Hj. apply H. lia.
Qed.

(** Two runs of the scorer: a query equal to the body scans every range to
    its end or breaks on the first comparison, so both maxima stay 0; a
    break at the third iteration records two words and two characters. *)
Example consecutive_scorer_runs :
  getConsecutiveWordSequenceMatchScore ["a"; "b"] ["a"; "b"] 2%float 1.5%float =
    Return {| consecutiveWordScore := 0%float; consecutiveWordSequenceScore := 0%float |} /\
  getConsecutiveWordSequenceMatchScore ["x"; "y"] ["x"; "x"; "y"; "x"; "z"] 2%float 1.5%float =
    Return {| consecutiveWordScore := 4%float; consecutiveWordSequenceScore := 3%float |}.
Proof. split; vm_compute; reflexivity. Qed.

(* ================================================================== *)
(** * The aggregator: which scorers are called *)
(* ================================================================== *)

(** The five guards of [search], each taken both ways. *)
Ltac case_guards o :=
  destruct (strictNeqZero (exactMatchPoints o));
  destruct (strictNeqZero (exactContainingMatchPoints o));
  destruct (strictNeqZero (singleWordMatchPoints o)
            && strictNeqZero (singleWordMatchLengthMultiplier o));
  destruct (strictNeqZero (uniqueSingleWordMatchPoints o)
            && strictNeqZero (uniqueSingleWordMatchLengthMultiplier o));
  destruct ((strictNeqZero (consecutiveWordMatchPoints o)
             && strictNeqZero (consecutiveWordMatchLengthMultiplier o))
            || (strictNeqZero (consecutiveWordSequenceMatchPoints o)
                && strictNeqZero (consecutiveWordSequenceLengthMultiplier o))).

(** The run of [search] once the guards and the scorers are decided. *)
Ltac run_search := cbv [bind invoke ret calls outcome fst snd app].

Section Aggregator.

Variable hostRegExp : string -> option (string -> nat).

(** The scorers [search] calls are the enabled ones, in order, up to the
    first that throws; all of them when [search] returns. *)
Lemma search_calls (inputs : SearchInputs) :
  let o := effectiveOptions (options inputs) in
  let r := search hostRegExp inputs in
  (exists rest, filter (enabled o) scorers = calls r ++ rest) /\
  (forall v, outcome r = Return v -> calls r = filter (enabled o) scorers).
Proof.
  intros o r. subst r. unfold search. fold o.
  set (fq := getConfiguredText (query inputs) _ _ _).
  set (fb := getConfiguredText (body inputs) _ _ _).
  set (qw := getWords fq _ _). set (bw := getWords fb _ _).
  unfold scorers, filter, enabled.
  case_guards o;
  try destruct (getExactContainingMatchScore hostRegExp fq fb) as [n|e];
  try destruct (getConsecutiveWordSequenceMatchScore qw bw _ _) as [cs|e'];
  run_search;
  (split; [eexists; reflexivity | intros v Hv; (reflexivity || discriminate Hv)]).
Qed.

End Aggregator.

(** C6, as the code has it.  With the six point weights at zero [search]
    calls no scorer and returns exactly 0.  The exact, exact-containing,
    single-word and unique-single-word scorers are not called when the
    point weight of their strategy, or the length multiplier it needs, is
    zero.  The two consecutive strategies share one scorer: it is not
    called when both are switched off, and every scorer [search] calls is
    an enabled one; when [search] returns, it has called every enabled
    scorer, so the shared scorer runs as soon as one of the two
    consecutive strategies is on. *)
Theorem zero_weights_skip_scorers (hostRegExp : string -> option (string -> nat))
    (inputs : SearchInputs) :
  let o := effectiveOptions (options inputs) in
  let r := search hostRegExp inputs in
  (allPointsZero o = true -> r = ([], Return 0%float)) /\
  (forall s, s <> ConsecutiveWord -> s <> ConsecutiveWordSequence ->
             switchedOff o s = true -> ~ In (scorerOf s) (calls r)) /\
  (switchedOff o ConsecutiveWord = true -> switchedOff o ConsecutiveWordSequence = true ->
   ~ In ConsecutiveWordSequenceMatch (calls r)) /\
  (forall f, In f (calls r) -> enabled o f = true) /\
  (forall v, outcome r = Return v -> forall f, enabled o f = true -> In f (calls r)).
Proof.
  intros o r.
  destruct (search_calls hostRegExp inputs) as [[rest Hprefix] Hall].
  fold o in Hprefix, Hall. fold r in Hprefix, Hall.
  assert (Hcalled : forall f, In f (calls r) -> enabled o f = true).
  { intros f Hf.
    assert (Hin : In f (filter (enabled o) scorers)).
    { rewrite Hprefix. apply in_or_app. now left. }
    apply filter_In in Hin. tauto. }
  split; [|split; [|split; [|split]]].
  - intro Hzero. unfold allPointsZero in Hzero.
    repeat (apply andb_prop in Hzero; destruct Hzero as [Hzero ?]).
    repeat match goal with
           | H : negb _ = true |- _ => apply negb_true_iff in H
           end.
    subst r. unfold search. fold o.
    repeat match goal with
           | H : strictNeqZero _ = false |- _ => rewrite H; clear H
           end.
    reflexivity.
  - clearbody r o. intros s H1 H2 Hoff Hin. apply Hcalled in Hin.
    destruct s; simpl in Hoff, Hin; try congruence;
      first [ rewrite Hin in Hoff; discriminate Hoff
            | apply andb_prop in Hin; destruct Hin as [Ha Hb];
              rewrite Ha, Hb in Hoff; discriminate Hoff ].
  - clearbody r o. intros Hw Hs Hin. apply Hcalled in Hin. simpl in Hw, Hs, Hin.
    destruct (strictNeqZero (consecutiveWordMatchPoints o)),
             (strictNeqZero (consecutiveWordMatchLengthMultiplier o)),
             (strictNeqZero (consecutiveWordSequenceMatchPoints o)),
             (strictNeqZero (consecutiveWordSequenceLengthMultiplier o));
      discriminate.
  - exact Hcalled.
  - clearbody r o. intros v Hv f Hf. rewrite (Hall v Hv). apply filter_In. split; [|exact Hf].
    destruct f; simpl; tauto.
Qed.

(** C6, against the claim.  With [{ consecutiveWordMatchPoints: 0 }] the
    consecutive-word strategy is switched off, and still its scorer is
    called: the consecutive-sequence strategy, which shares it, is on. *)
Lemma switched_off_strategy_scorer_called :
  let inputs := {| query := "a"; body := "a";
                   options := Some consecutiveWordMatchPointsZero |} in
  switchedOff (effectiveOptions (options inputs)) ConsecutiveWord = true /\
  In (scorerOf ConsecutiveWord) (calls (search rejectingHost inputs)) /\
  ~ skipsEverySwitchedOffStrategy (effectiveOptions (options inputs))
                                  (search rejectingHost inputs).
Proof.
  intro inputs.
  assert (Hoff : switchedOff (effectiveOptions (options inputs)) ConsecutiveWord = true)
    by (vm_compute; reflexivity).
  assert (Hin : In (scorerOf ConsecutiveWord) (calls (search rejectingHost inputs)))
    by (vm_compute; tauto).
  split; [exact Hoff|]. split; [exact Hin|].
  intro H. exact (H ConsecutiveWord Hoff Hin).
Qed.

(** With the six point weights at 0 no scorer is called, even on a query
    the exact-containing matcher could not build a pattern from. *)
Example zero_weights_call_no_scorer :
  search rejectingHost {| query := "a("; body := "a(b";
                          options := Some allPointWeightsZero |} =
    ([], Return 0%float) /\
  search rejectingHost {| query := "a("; body := "a(b"; options := None |} =
    ([ExactMatch; ExactContainingMatch], Throw SyntaxError).
Proof. split; vm_compute; reflexivity. Qed.

(* ================================================================== *)
(** * Facts of binary64 arithmetic *)
(* ================================================================== *)

Lemma Prim2SF_zero : Prim2SF 0%float = S754_zero false.
Proof. reflexivity. Qed.

Lemma Prim2SF_one : Prim2SF 1%float = S754_finite false 4503599627370496 (-52).
Proof. reflexivity. Qed.

Lemma notNegative_spec (x : number) : notNegative x = signIsPlus (Prim2SF x).
Proof.
  unfold notNegative. rewrite FloatAxioms.ltb_spec, Prim2SF_zero.
  destruct (Prim2SF x) as [s|s| |s m e]; try destruct s; reflexivity.
Qed.

(** Rounding keeps the sign it is given. *)
Lemma binary_round_aux_plus (m e : Z) (l : location) :
  signIsPlus (binary_round_aux prec emax false m e l) = true.
Proof.
  unfold binary_round_aux.
  destruct (shr_fexp prec emax m e l) as [mrs e'].
  destruct (shr_fexp prec emax _ e' loc_Exact) as [mrs' e''].
  destruct (shr_m mrs'); [reflexivity | | reflexivity].
  destruct (Z.leb e'' (emax - prec)); reflexivity.
Qed.

Lemma binary_round_plus (m : positive) (e : Z) :
  signIsPlus (binary_round prec emax false m e) = true.
Proof.
  unfold binary_round.
  destruct (shl_align m e _) as [mz ez]. apply binary_round_aux_plus.
Qed.

Lemma SFmul_plus (x y : spec_float) :
  signIsPlus x = true -> signIsPlus y = true -> signIsPlus (SFmul prec emax x y) = true.
Proof.
  destruct x as [sx|sx| |sx mx ex], y as [sy|sy| |sy my ey]; simpl;
    try reflexivity; try discriminate;
    try (destruct sx; simpl;
         (discriminate || (destruct sy; simpl; (discriminate || reflexivity)))).
  intros Hx Hy. apply negb_true_iff in Hx, Hy. subst. apply binary_round_aux_plus.
Qed.

Lemma SFadd_plus (x y : spec_float) :
  signIsPlus x = true -> signIsPlus y = true -> signIsPlus (SFadd prec emax x y) = true.
Proof.
  destruct x as [sx|sx| |sx mx ex], y as [sy|sy| |sy my ey]; simpl;
    try reflexivity; try discriminate;
    try (destruct sx, sy; simpl; (discriminate || reflexivity)); auto.
  intros Hx Hy. apply negb_true_iff in Hx, Hy. subst. simpl.
  apply binary_round_plus.
Qed.

Lemma notNegative_mul (x y : number) :
  notNegative x = true -> notNegative y = true -> notNegative (x * y)%float = true.
Proof. rewrite !notNegative_spec, FloatAxioms.mul_spec. apply SFmul_plus. Qed.

Lemma notNegative_add (x y : number) :
  notNegative x = true -> notNegative y = true -> notNegative (x + y)%float = true.
Proof. rewrite !notNegative_spec, FloatAxioms.add_spec. apply SFadd_plus. Qed.

Lemma notNegative_of_nat (n : nat) : notNegative (of_nat n) = true.
Proof.
  unfold of_nat. rewrite notNegative_spec, FloatAxioms.of_uint63_spec.
  pose proof (Uint63.to_Z_bounded (Uint63.of_Z (Z.of_nat n))) as [H _].
  destruct (Uint63.to_Z (Uint63.of_Z (Z.of_nat n))) as [|p|p]; simpl.
  - reflexivity.
  - apply binary_round_plus.
  - lia.
Qed.

Lemma leb_zero_notNegative (x : number) : (0 <=? x)%float = true -> notNegative x = true.
Proof.
  rewrite notNegative_spec, FloatAxioms.leb_spec, Prim2SF_zero.
  destruct (Prim2SF x) as [s|s| |s m e]; try destruct s; cbv; congruence.
Qed.

Lemma notNegative_cases (x : number) :
  notNegative x = true -> (0 <=? x)%float = true \/ x = NaN.
Proof.
  rewrite notNegative_spec, FloatAxioms.leb_spec, Prim2SF_zero.
  destruct (Prim2SF x) as [s|s| |s m e] eqn:E; try destruct s; cbv; auto; try discriminate.
  intros _. right. apply Prim2SF_inj. rewrite E. reflexivity.
Qed.

(** Multiplying by one is exact: the product of the mantissas is the
    mantissa shifted by the 52 bits the rounding shifts back. *)
Lemma shift_52 (m : positive) :
  iter_pos shr_1 52
    {| shr_m := Z.pos (4503599627370496 * m); shr_r := false; shr_s := false |} =
  {| shr_m := Z.pos m; shr_r := false; shr_s := false |}.
Proof. vm_compute. reflexivity. Qed.

Lemma digits_52 (m : positive) :
  Z.pos (digits2_pos (4503599627370496 * m)) = (Z.pos (digits2_pos m) + 52)%Z.
Proof.
  replace (digits2_pos (4503599627370496 * m))
    with (Pos.iter Pos.succ (digits2_pos m) 52) by (vm_compute; reflexivity).
  generalize (digits2_pos m). intro d. cbn. lia.
Qed.

Lemma round_times_one (s : bool) (m : positive) (e : Z) :
  bounded prec emax m e = true ->
  binary_round_aux prec emax s (Z.pos (m * 4503599627370496)) (e + -52) loc_Exact =
  S754_finite s m e.
Proof.
  unfold bounded, canonical_mantissa. intro H. apply andb_prop in H.
  destruct H as [Hcan Hmax]. apply Z.eqb_eq in Hcan.
  rewrite Pos.mul_comm. unfold binary_round_aux, shr_fexp at 1.
  unfold Zdigits2. rewrite digits_52.
  replace (Z.pos (digits2_pos m) + 52 + (e + -52))%Z
    with (Z.pos (digits2_pos m) + e)%Z by lia.
  rewrite Hcan. replace (e - (e + -52))%Z with 52%Z by lia.
  unfold shr_record_of_loc, shr. rewrite shift_52.
  unfold shr_m at 1, loc_of_shr_record, round_nearest_even, shr_fexp, Zdigits2.
  replace (e + -52 + 52)%Z with e by lia.
  rewrite Hcan, Z.sub_diag. unfold shr_record_of_loc, shr, shr_m.
  now rewrite Hmax.
Qed.

Lemma mul_one_r (x : number) : (x * 1)%float = x.
Proof.
  apply Prim2SF_inj. rewrite FloatAxioms.mul_spec, Prim2SF_one.
  pose proof (Prim2SF_valid x) as Hvalid.
  destruct (Prim2SF x) as [s|s| |s m e]; unfold SF64mul, SFmul.
  - now destruct s.
  - now destruct s.
  - reflexivity.
  - rewrite xorb_false_r. apply round_times_one. exact Hvalid.
Qed.

(** Zero times a finite number is a zero. *)
Lemma zero_mul_finite (x : number) :
  PrimFloat.is_finite x = true -> (of_nat 0 * x =? 0)%float = true.
Proof.
  unfold PrimFloat.is_finite, PrimFloat.is_nan, PrimFloat.is_infinity.
  change (of_nat 0) with 0%float.
  rewrite !FloatAxioms.eqb_spec, FloatAxioms.abs_spec, FloatAxioms.mul_spec, Prim2SF_zero.
  change (Prim2SF infinity) with (S754_infinity false).
  destruct (Prim2SF x) as [s|s| |s m e]; try destruct s; cbv; congruence.
Qed.

(* ================================================================== *)
(** * The sign of the score *)
(* ================================================================== *)

Lemma notNegative_getExactMatchScore (query body : string) :
  notNegative (getExactMatchScore query body) = true.
Proof. unfold getExactMatchScore. now destruct (String.eqb query body). Qed.

Lemma notNegative_getCustomWordMultiplier (word : string) :
  notNegative (getCustomWordMultiplier word) = true.
Proof.
  unfold getCustomWordMultiplier.
  destruct ((String.length word =? 1)%nat && matchesClass punctuationClass word);
    [reflexivity|].
  now destruct (String.eqb word "the" || String.eqb word "a" || String.eqb word "of"
                || String.eqb word "I" || String.eqb word "and").
Qed.

Lemma notNegative_fold_left (f : number -> string -> number) (words : list string) :
  (forall score word, notNegative score = true -> notNegative (f score word) = true) ->
  forall score, notNegative score = true -> notNegative (fold_left f words score) = true.
Proof.
  intro Hf. induction words as [|w rest IH]; intros score H; simpl; auto.
Qed.

Lemma notNegative_getSingleWordMatchScore (queryWords bodyWords : list string)
    (multiplier : number) :
  notNegative multiplier = true ->
  notNegative (getSingleWordMatchScore queryWords bodyWords multiplier) = true.
Proof.
  intro Hm. unfold getSingleWordMatchScore.
  apply notNegative_fold_left; [|reflexivity].
  intros score word Hs.
  repeat first [ assumption | apply notNegative_add | apply notNegative_mul
               | apply notNegative_of_nat | apply notNegative_getCustomWordMultiplier ].
Qed.

Lemma notNegative_getUniqueSingleWordMatchScore (queryWords bodyWords : list string)
    (multiplier : number) :
  notNegative multiplier = true ->
  notNegative (getUniqueSingleWordMatchScore queryWords bodyWords multiplier) = true.
Proof.
  intro Hm. unfold getUniqueSingleWordMatchScore.
  apply notNegative_fold_left; [|reflexivity].
  intros score word Hs.
  repeat first [ assumption | apply notNegative_add | apply notNegative_mul
               | apply notNegative_of_nat | apply notNegative_getCustomWordMultiplier ].
Qed.

Lemma notNegative_getConsecutiveWordSequenceMatchScore (queryWords bodyWords : list string)
    (wordMultiplier sequenceMultiplier : number) (r : consecutiveScores) :
  notNegative wordMultiplier = true -> notNegative sequenceMultiplier = true ->
  getConsecutiveWordSequenceMatchScore queryWords bodyWords wordMultiplier
                                       sequenceMultiplier = Return r ->
  notNegative (consecutiveWordScore r) = true /\
  notNegative (consecutiveWordSequenceScore r) = true.
Proof.
  intros Hw Hs. unfold getConsecutiveWordSequenceMatchScore.
  destruct (scanQuery _ _ _ _ _) as [best|e]; [|discriminate].
  intro H. injection H as <-. simpl.
  split; apply notNegative_mul; (assumption || apply notNegative_of_nat).
Qed.

Lemma nonNegativeOptions_effective (options : option PartialSearchOptions) :
  nonNegativeOptions options ->
  everyNumber nonNegativeValue (effectiveOptions options).
Proof.
  unfold nonNegativeOptions, effectiveOptions, everyNumber.
  destruct options as [o|]; simpl.
  - destruct o as [k1 k2 k3 k4 k5 k6 k7 k8 k9 k10 k11 k12 k13 k14]; simpl.
    intros (H1 & H2 & H3 & H4 & H5 & H6 & H7 & H8 & H9 & H10).
    repeat split;
      match goal with
      | |- nonNegativeValue (spreadKey _ ?k) =>
          destruct k as [|[x|]]; simpl in *; (assumption || contradiction || reflexivity)
      end.
  - intros _. repeat split.
Qed.

Lemma nonNegativeValue_ToNumber (v : option number) :
  nonNegativeValue v -> notNegative (ToNumber v) = true.
Proof.
  destruct v as [x|]; simpl; [apply leb_zero_notNegative | contradiction].
Qed.

Section Sign.

Variable hostRegExp : string -> option (string -> nat).

Lemma search_notNegative (inputs : SearchInputs) (v : number) :
  everyNumber nonNegativeValue (effectiveOptions (options inputs)) ->
  outcome (search hostRegExp inputs) = Return v ->
  notNegative v = true.
Proof.
  unfold search. set (o := effectiveOptions (options inputs)).
  set (fq := getConfiguredText (query inputs) _ _ _).
  set (fb := getConfiguredText (body inputs) _ _ _).
  set (qw := getWords fq _ _). set (bw := getWords fb _ _).
  clearbody o fq fb qw bw.
  intros (H1 & H2 & H3 & H4 & H5 & H6 & H7 & H8 & H9 & H10).
  apply nonNegativeValue_ToNumber in H1, H2, H3, H4, H5, H6, H7, H8, H9, H10.
  pose proof (notNegative_getSingleWordMatchScore qw bw _ H4) as Hsingle.
  pose proof (notNegative_getUniqueSingleWordMatchScore qw bw _ H6) as Hunique.
  pose proof (fun r => notNegative_getConsecutiveWordSequenceMatchScore
                         qw bw _ _ r H8 H10) as Hcons.
  assert (Hzero : notNegative 0%float = true) by reflexivity.
  case_guards o;
  try destruct (getExactContainingMatchScore hostRegExp fq fb) as [n|e];
  try (destruct (getConsecutiveWordSequenceMatchScore qw bw _ _) as [cs|e'];
       [destruct (Hcons cs eq_refl) as [Hc1 Hc2] | ]);
  run_search;
  intro Hv; try discriminate Hv; injection Hv as <-;
  repeat first [ assumption | apply notNegative_add | apply notNegative_mul
               | apply notNegative_of_nat | apply notNegative_getExactMatchScore ].
Qed.

End Sign.

(** C7, as the code has it.  When every numeric field of the options is
    a number that is not negative, the score [search] returns is never
    below zero: it is at least 0, or it is [NaN]. *)
Theorem search_never_negative (hostRegExp : string -> option (string -> nat))
    (inputs : SearchInputs) (v : number) :
  nonNegativeOptions (options inputs) ->
  outcome (search hostRegExp inputs) = Return v ->
  (0 <=? v)%float = true \/ v = NaN.
Proof.
  intros Hopts Hv. apply notNegative_cases.
  apply (search_notNegative hostRegExp inputs v); [|exact Hv].
  now apply nonNegativeOptions_effective.
Qed.

(** C7, on an input: the query [quick fox], with a zero point weight
    among the options, scores 37.5. *)
Lemma search_never_negative_witness :
  let inputs := {| query := "quick fox";
                   body := "The quick brown fox jumps over the lazy dog";
                   options := Some consecutiveWordMatchPointsZero |} in
  nonNegativeOptions (options inputs) /\
  outcome (search rejectingHost inputs) = Return 37.5%float /\
  ((0 <=? 37.5)%float = true \/ 37.5%float = NaN).
Proof.
  intro inputs.
  assert (Hopts : nonNegativeOptions (options inputs)).
  { simpl. unfold everyNumber, nonNegativeKey. simpl. repeat split. }
  assert (Hv : outcome (search rejectingHost inputs) = Return 37.5%float)
    by (vm_compute; reflexivity).
  split; [exact Hopts|]. split; [exact Hv|].
  exact (search_never_negative rejectingHost inputs 37.5%float Hopts Hv).
Defined.

(** C7, against the claim.  The two numbers of the override are finite and
    not negative; the longest sequence of the query [ab] in the body
    [ab ab] has two characters, its score overflows to the infinity, and
    the zero point weight times the infinity is [NaN], which is not at
    least 0. *)
Lemma search_returns_NaN :
  let inputs := {| query := "ab"; body := "ab ab";
                   options := Some hugeSequenceMultiplier |} in
  nonNegativeOptions (options inputs) /\
  outcome (search rejectingHost inputs) = Return NaN /\
  (0 <=? NaN)%float = false.
Proof.
  intro inputs. split; [|split].
  - simpl. unfold everyNumber, nonNegativeKey. simpl. repeat split.
  - vm_compute. reflexivity.
  - reflexivity.
Qed.

(* ================================================================== *)
(** * The dampening factor *)
(* ================================================================== *)

(** The class of the dampening factor is the space and the punctuation and
    symbol characters of Basic Latin. *)
Lemma punctuationClass_members (c : ascii) :
  charIn c punctuationClass = (Ascii.eqb c " " || isPunctuationOrSymbol c).
Proof.
  destruct c as [b0 b1 b2 b3 b4 b5 b6 b7].
  destruct b0, b1, b2, b3, b4, b5, b6, b7; vm_compute; reflexivity.
Qed.

Lemma getCustomWordMultiplier_single (c : ascii) :
  charIn c punctuationClass = true ->
  getCustomWordMultiplier (String c EmptyString) = 0x1.999999999999ap-4%float.
Proof.
  intro H. unfold getCustomWordMultiplier.
  change (matchesClass punctuationClass (String c EmptyString))
    with (charIn c punctuationClass || false).
  now rewrite H.
Qed.

Lemma getCustomWordMultiplier_stop (word : string) :
  In word stopWords -> getCustomWordMultiplier word = 0.5%float.
Proof.
  intro H. simpl in H.
  destruct H as [<-|[<-|[<-|[<-|[<-|[]]]]]]; vm_compute; reflexivity.
Qed.

Lemma getCustomWordMultiplier_other (word : string) :
  ~ In word stopWords ->
  (forall c, word = String c EmptyString -> charIn c punctuationClass = false) ->
  getCustomWordMultiplier word = 1%float.
Proof.
  intros Hstop Hclass. unfold getCustomWordMultiplier.
  assert (E1 : (String.length word =? 1)%nat && matchesClass punctuationClass word = false).
  { destruct word as [|c [|c' rest]]; try reflexivity.
    change (matchesClass punctuationClass (String c EmptyString))
      with (charIn c punctuationClass || false).
    now rewrite (Hclass c eq_refl). }
  rewrite E1.
  assert (E2 : String.eqb word "the" || String.eqb word "a" || String.eqb word "of"
               || String.eqb word "I" || String.eqb word "and" = false).
  { repeat (apply orb_false_intro); apply String.eqb_neq; intro E; apply Hstop;
      subst word; simpl; tauto. }
  now rewrite E2.
Qed.

Lemma filter_includes_singleton (bodyWords : list string) (word : string) :
  includes bodyWords word = true ->
  filter (fun queryWord => includes bodyWords queryWord) [word] = [word].
Proof. intro H. simpl. now rewrite H. Qed.

Lemma getSingleWordMatchScore_last (pre bodyWords : list string) (multiplier : number)
    (word : string) :
  includes bodyWords word = true ->
  getSingleWordMatchScore (pre ++ [word]) bodyWords multiplier =
  (getSingleWordMatchScore pre bodyWords multiplier +
   of_nat (countEqual bodyWords word) * of_nat (String.length word) * multiplier *
   getCustomWordMultiplier word)%float.
Proof.
  intro H. unfold getSingleWordMatchScore.
  rewrite filter_app, fold_left_app, (filter_includes_singleton _ _ H). reflexivity.
Qed.

Lemma getUniqueSingleWordMatchScore_last (pre bodyWords : list string)
    (multiplier : number) (word : string) :
  includes bodyWords word = true ->
  getUniqueSingleWordMatchScore (pre ++ [word]) bodyWords multiplier =
  (getUniqueSingleWordMatchScore pre bodyWords multiplier +
   of_nat (String.length word) * multiplier * getCustomWordMultiplier word)%float.
Proof.
  intro H. unfold getUniqueSingleWordMatchScore.
  rewrite filter_app, fold_left_app, (filter_includes_singleton _ _ H). reflexivity.
Qed.

(** C9, as the code has it.  The dampening factor is 0.1 for a token of
    one character that is the space or a punctuation or symbol character of
    Basic Latin, 0.5 for the five stop words, compared as they are written
    whatever the case-sensitivity flag is (the function does not get it),
    and 1 for every other token.  So a shared token [the] adds half of what
    a shared token of three characters with factor 1 and as many
    occurrences in the body adds, in both frequency scorers: [x * 0.5]
    where the other adds [x]. *)
Theorem dampening_factor (pre bodyWords : list string) (multiplier : number)
    (word : string) :
  (forall c, charIn c punctuationClass = (Ascii.eqb c " " || isPunctuationOrSymbol c)) /\
  (forall c, charIn c punctuationClass = true ->
             getCustomWordMultiplier (String c EmptyString) = 0x1.999999999999ap-4%float) /\
  (forall w, In w stopWords -> getCustomWordMultiplier w = 0.5%float) /\
  (forall w, ~ In w stopWords ->
             (forall c, w = String c EmptyString -> charIn c punctuationClass = false) ->
             getCustomWordMultiplier w = 1%float) /\
  (String.length word = 3 -> getCustomWordMultiplier word = 1%float ->
   includes bodyWords word = true -> includes bodyWords "the" = true ->
   countEqual bodyWords word = countEqual bodyWords "the" ->
   let x := (of_nat (countEqual bodyWords word) * of_nat 3 * multiplier)%float in
   let y := (of_nat 3 * multiplier)%float in
   getSingleWordMatchScore (pre ++ [word]) bodyWords multiplier =
     (getSingleWordMatchScore pre bodyWords multiplier + x)%float /\
   getSingleWordMatchScore (pre ++ ["the"]) bodyWords multiplier =
     (getSingleWordMatchScore pre bodyWords multiplier + x * 0.5)%float /\
   getUniqueSingleWordMatchScore (pre ++ [word]) bodyWords multiplier =
     (getUniqueSingleWordMatchScore pre bodyWords multiplier + y)%float /\
   getUniqueSingleWordMatchScore (pre ++ ["the"]) bodyWords multiplier =
     (getUniqueSingleWordMatchScore pre bodyWords multiplier + y * 0.5)%float).
Proof.
  split; [exact punctuationClass_members|].
  split; [exact getCustomWordMultiplier_single|].
  split; [exact getCustomWordMultiplier_stop|].
  split; [exact getCustomWordMultiplier_other|].
  intros Hlen Hone Hword Hthe Hcount x y. subst x y.
  rewrite (getSingleWordMatchScore_last _ _ _ _ Hword),
          (getSingleWordMatchScore_last _ _ _ _ Hthe),
          (getUniqueSingleWordMatchScore_last _ _ _ _ Hword),
          (getUniqueSingleWordMatchScore_last _ _ _ _ Hthe).
  rewrite Hlen, Hone, <- Hcount, !mul_one_r.
  change (String.length "the") with 3.
  change (getCustomWordMultiplier "the") with 0.5%float.
  repeat split.
Qed.

(** C9, against the claim.  The space is no punctuation or symbol
    character and no stop word, and the token of one space has the factor
    0.1, not 1. *)
Lemma space_is_dampened :
  isPunctuationOrSymbol " " = false /\
  ~ In " " stopWords /\
  getCustomWordMultiplier " " = 0x1.999999999999ap-4%float /\
  dampeningAsClaimed " " = 1%float /\
  (getCustomWordMultiplier " " =? dampeningAsClaimed " ")%float = false.
Proof.
  split; [reflexivity|]. split.
  - simpl. intros [H|[H|[H|[H|[H|[]]]]]]; discriminate H.
  - repeat split; vm_compute; reflexivity.
Qed.

(** The halving on the tokens [the] and [fox] of the body [the fox]. *)
Example the_adds_half_of_fox :
  getSingleWordMatchScore ["fox"] ["the"; " "; "fox"] 1.5%float = 4.5%float /\
  getSingleWordMatchScore ["the"] ["the"; " "; "fox"] 1.5%float = 2.25%float /\
  getUniqueSingleWordMatchScore ["fox"] ["the"; " "; "fox"] 1.5%float = 4.5%float /\
  getUniqueSingleWordMatchScore ["the"] ["the"; " "; "fox"] 1.5%float = 2.25%float.
Proof. repeat split; vm_compute; reflexivity. Qed.

(* ================================================================== *)
(** * Empty inputs *)
(* ================================================================== *)

(** The empty pattern matches once at every index of the subject, the end
    included. *)
Lemma countLiteral_empty (subject : string) :
  countLiteral EmptyString subject = S (String.length subject).
Proof.
  unfold countLiteral.
  induction subject as [|c rest IH]; simpl; [reflexivity | now rewrite IH].
Qed.

Lemma getConfiguredText_empty (isCaseSensitive shouldMatchPunctuation
    shouldCollapseWhitespace : bool) :
  getConfiguredText EmptyString isCaseSensitive shouldMatchPunctuation
                    shouldCollapseWhitespace = EmptyString.
Proof.
  now destruct isCaseSensitive, shouldMatchPunctuation, shouldCollapseWhitespace.
Qed.

Lemma filter_includes_nil (queryWords : list string) :
  filter (fun queryWord => includes [] queryWord) queryWords = [].
Proof. induction queryWords as [|w rest IH]; simpl; [reflexivity | exact IH]. Qed.

Lemma scanQuery_no_body (queryWords : list string) (remaining : nat) :
  forall (firstQueryWord : nat) (best : maxima),
  scanQuery queryWords [] remaining firstQueryWord best = Return best.
Proof.
  induction remaining as [|r IH]; intros i best; simpl; [reflexivity | apply IH].
Qed.

Section EmptyInputs.

Variable hostRegExp : string -> option (string -> nat).

(** C4, as the code has it.  The normalized empty query is empty, and the
    exact-containing matcher counts one match of it at every index of the
    normalized body: the length of that body plus one, never 0.  With the
    five other strategies switched off, [search] returns the exact-containing
    point weight, 50, times that count.  An empty token sequence on either
    side gives 0 in both frequency scorers and the maxima 0 in the
    consecutive scorer, whose two scores are then zero times the
    multipliers: a zero when the multiplier is finite. *)
Theorem empty_query_matches_at_every_index (text : string)
    (isCaseSensitive shouldMatchPunctuation shouldCollapseWhitespace : bool)
    (queryWords bodyWords : list string) (multiplier sequenceMultiplier : number) :
  let formattedQuery :=
    getConfiguredText EmptyString isCaseSensitive shouldMatchPunctuation
                      shouldCollapseWhitespace in
  let formattedBody :=
    getConfiguredText text isCaseSensitive shouldMatchPunctuation
                      shouldCollapseWhitespace in
  formattedQuery = EmptyString /\
  getExactContainingMatchScore hostRegExp formattedQuery formattedBody =
    Return (S (String.length formattedBody)) /\
  search hostRegExp {| query := EmptyString; body := text;
                       options := Some onlyExactContaining |} =
    ([ExactContainingMatch],
     Return (0 + 50 * of_nat (S (String.length (getConfiguredText text false true true))))%float) /\
  getSingleWordMatchScore [] bodyWords multiplier = 0%float /\
  getSingleWordMatchScore queryWords [] multiplier = 0%float /\
  getUniqueSingleWordMatchScore [] bodyWords multiplier = 0%float /\
  getUniqueSingleWordMatchScore queryWords [] multiplier = 0%float /\
  getConsecutiveWordSequenceMatchScore [] bodyWords multiplier sequenceMultiplier =
    Return (noConsecutiveMatch multiplier sequenceMultiplier) /\
  getConsecutiveWordSequenceMatchScore queryWords [] multiplier sequenceMultiplier =
    Return (noConsecutiveMatch multiplier sequenceMultiplier) /\
  (PrimFloat.is_finite multiplier = true ->
   (consecutiveWordScore (noConsecutiveMatch multiplier sequenceMultiplier) =? 0)%float
   = true).
Proof.
  intros formattedQuery formattedBody.
  assert (Hq : formattedQuery = EmptyString) by apply getConfiguredText_empty.
  split; [exact Hq|]. split.
  { rewrite Hq. unfold getExactContainingMatchScore. simpl.
    now rewrite countLiteral_empty. }
  split.
  { unfold search. simpl.
    set (fb := getConfiguredText text false true true).
    unfold getExactContainingMatchScore. simpl. rewrite countLiteral_empty.
    reflexivity. }
  split; [reflexivity|]. split.
  { unfold getSingleWordMatchScore. now rewrite filter_includes_nil. }
  split; [reflexivity|]. split.
  { unfold getUniqueSingleWordMatchScore. now rewrite filter_includes_nil. }
  split; [reflexivity|]. split.
  { unfold getConsecutiveWordSequenceMatchScore. now rewrite scanQuery_no_body. }
  apply zero_mul_finite.
Qed.

End EmptyInputs.

(** C4, against the claim.  For the empty query and the body [x], with
    the default options, the exact-containing matcher counts 2 matches and
    the strategy adds 50 times 2 to the score, which is 100 and not 0. *)
Lemma empty_query_scores_100 :
  getExactContainingMatchScore rejectingHost
    (getConfiguredText EmptyString false true true)
    (getConfiguredText "x" false true true) = Return 2 /\
  search rejectingHost {| query := EmptyString; body := "x"; options := None |} =
    ([ExactMatch; ExactContainingMatch; SingleWordMatch; UniqueSingleWordMatch;
      ConsecutiveWordSequenceMatch], Return 100%float) /\
  search rejectingHost {| query := EmptyString; body := "x";
                          options := Some onlyExactContaining |} =
    ([ExactContainingMatch], Return 100%float).
Proof. repeat split; vm_compute; reflexivity. Qed.

(* ================================================================== *)
(** * The unique variant on a repeated query token *)
(* ================================================================== *)

(** The unique variant reads the body for membership only: how often a
    token recurs in the body does not matter. *)
Lemma getUniqueSingleWordMatchScore_membership (queryWords bodyWords bodyWords' : list string)
    (multiplier : number) :
  (forall word, includes bodyWords word = includes bodyWords' word) ->
  getUniqueSingleWordMatchScore queryWords bodyWords multiplier =
  getUniqueSingleWordMatchScore queryWords bodyWords' multiplier.
Proof.
  intro H. unfold getUniqueSingleWordMatchScore.
  now rewrite (filter_ext _ _ H).
Qed.

(** C3, on the code.  The unique variant adds a shared token once for
    each of its occurrences in the query: whatever the query has before
    it, one more occurrence of a shared word adds its length times the
    multiplier times its factor once more.  The query [foo foo] has the
    token [foo] twice, and the variant adds it twice on the body [foo]: 9,
    where once per distinct token gives 4.5; [search] returns 27 with the
    default options. *)
Theorem unique_variant_counts_query_repeats :
  (forall (pre bodyWords : list string) (multiplier : number) (word : string),
     includes bodyWords word = true ->
     getUniqueSingleWordMatchScore (pre ++ [word]) bodyWords multiplier =
     (getUniqueSingleWordMatchScore pre bodyWords multiplier +
      of_nat (String.length word) * multiplier * getCustomWordMultiplier word)%float) /\
  getWords "foo foo" true true = ["foo"; " "; "foo"] /\
  getWords "foo" true true = ["foo"] /\
  getUniqueSingleWordMatchScore ["foo"; " "; "foo"] ["foo"] 1.5%float = 9%float /\
  uniqueScoreAsClaimed ["foo"; " "; "foo"] ["foo"] 1.5%float = 4.5%float /\
  getUniqueSingleWordMatchScore ["foo"] ["foo"; "foo"] 1.5%float = 4.5%float /\
  outcome (search rejectingHost {| query := "foo foo"; body := "foo"; options := None |})
  = Return 27%float.
Proof.
  split; [exact getUniqueSingleWordMatchScore_last|].
  repeat split; vm_compute; reflexivity.
Qed.

(* ================================================================== *)
(** * A query the consecutive scorer fails on *)
(* ================================================================== *)

(** A query of one word on a body that is that word twice: the second
    iteration of the inner loop reads both out of range. *)
Lemma word_twice_throws (word : string) (wordMultiplier sequenceMultiplier : number) :
  getConsecutiveWordSequenceMatchScore [word] [word; word] wordMultiplier
                                       sequenceMultiplier = Throw TypeError.
Proof.
  unfold getConsecutiveWordSequenceMatchScore, scanQuery, matchIndexes. simpl.
  rewrite String.eqb_refl. simpl. rewrite String.eqb_refl. reflexivity.
Qed.

(** C1, on the code.  In word-only mode the body [x x] has the word of the
    query [x] twice, so the inner loop runs a second time: the query and
    the body are both read out of range, [undefined] equals [undefined],
    and the length of [undefined] is read.  The scorer throws a
    [TypeError], and so does [search]; in the default mode the same query
    and body score 117.5.  The scorer throws so on every query of one
    word and body of twice that word. *)
Theorem consecutive_scorer_throws :
  hasSyntaxCharacter "x" = false /\
  getWords "x" false true = ["x"] /\
  getWords "x x" false true = ["x"; "x"] /\
  getConsecutiveWordSequenceMatchScore ["x"] ["x"; "x"] 2%float 1.5%float
  = Throw TypeError /\
  search rejectingHost {| query := "x"; body := "x x"; options := Some wordOnlyMode |} =
    ([ExactMatch; ExactContainingMatch; SingleWordMatch; UniqueSingleWordMatch;
      ConsecutiveWordSequenceMatch], Throw TypeError) /\
  outcome (search rejectingHost {| query := "x"; body := "x x"; options := None |})
  = Return 117.5%float /\
  (forall (word : string) (wordMultiplier sequenceMultiplier : number),
     getConsecutiveWordSequenceMatchScore [word] [word; word] wordMultiplier
                                          sequenceMultiplier = Throw TypeError).
Proof.
  repeat split; try (vm_compute; reflexivity). exact word_twice_throws.
Qed.

(* ================================================================== *)
(** * The default mode of the tokenizer: [search] returns *)
(* ================================================================== *)

Lemma isWordToken_snoc (t : string) (c : ascii) :
  isWordToken (snoc t c) = isWordToken t && isWordChar c.
Proof.
  unfold isWordToken, snoc. rewrite forallChars_append. simpl.
  now rewrite andb_true_r.
Qed.

(** The split leaves word tokens and separators in turn. *)
Lemma splitFrom_alternates (s : string) :
  forall (inSep : bool) (tok : string),
  isWordToken tok = negb inSep ->
  alternates (negb inSep) (splitFrom inSep tok s) = true.
Proof.
  induction s as [|c rest IH]; intros inSep tok Htok; simpl.
  - destruct inSep; simpl in *; rewrite Htok; reflexivity.
  - destruct (isWordChar c) eqn:Hc; destruct inSep; simpl in *.
    + rewrite Htok. simpl. apply (IH false). unfold isWordToken. simpl. now rewrite Hc.
    + apply (IH false). now rewrite isWordToken_snoc, Htok, Hc.
    + apply (IH true). now rewrite isWordToken_snoc, Htok.
    + rewrite Htok. simpl. apply (IH true). unfold isWordToken. simpl. now rewrite Hc.
Qed.

Lemma splitNonWord_alternates (s : string) : alternates true (splitNonWord s) = true.
Proof. apply (splitFrom_alternates s false EmptyString). reflexivity. Qed.

(** A string occurs at the places of one kind only, so at most at every
    other place. *)
Lemma alternates_count (w : string) (tokens : list string) :
  forall expectWord : bool,
  alternates expectWord tokens = true ->
  2 * count_occ string_dec tokens w +
  (if expectWord && negb (isWordToken w) then 1 else 0) <=
  List.length tokens + (if expectWord && isWordToken w then 1 else 0).
Proof.
  induction tokens as [|t rest IH]; intros e H; simpl in H.
  - destruct e; [discriminate | simpl; lia].
  - apply andb_prop in H. destruct H as [Ht Hrest]. apply eqb_prop in Ht.
    specialize (IH (negb e) Hrest). simpl count_occ. simpl List.length.
    destruct (string_dec t w) as [->|Hne].
    + rewrite Ht in IH |- *. destruct e; simpl in *; lia.
    + destruct e, (isWordToken w); simpl in *; lia.
Qed.

Lemma splitNonWord_occurrences (s : string) (queryWord : option string) :
  2 * occurrences (splitNonWord s) queryWord <= List.length (splitNonWord s) + 1.
Proof.
  destruct queryWord as [w|]; simpl; [|lia].
  pose proof (alternates_count w (splitNonWord s) true (splitNonWord_alternates s)) as H.
  simpl in H. destruct (isWordToken w); simpl in H; lia.
Qed.

(** The inner loop returns when every body word it may read is in range. *)
Lemma scanBody_in_range (queryWords bodyWords : list string) (firstQueryWord : nat)
    (remaining : nat) :
  forall (k sequence : nat) (best : maxima),
  2 * (k + remaining) <= List.length bodyWords + 1 ->
  exists result,
    scanBody queryWords bodyWords firstQueryWord remaining k k sequence best = Return result.
Proof.
  induction remaining as [|r IH]; intros k sequence best H; simpl.
  - now exists best.
  - destruct (negb _); [eexists; reflexivity|].
    destruct (at_ bodyWords (k + k)) as [w|] eqn:Hw.
    + apply IH. lia.
    + apply nth_error_None in Hw. lia.
Qed.

Lemma scanQuery_in_range (queryWords bodyWords : list string) (remaining : nat) :
  (forall queryWord, 2 * occurrences bodyWords queryWord <= List.length bodyWords + 1) ->
  forall (firstQueryWord : nat) (best : maxima),
  exists result, scanQuery queryWords bodyWords remaining firstQueryWord best = Return result.
Proof.
  intro Hocc. induction remaining as [|r IH]; intros i best; simpl.
  - now exists best.
  - rewrite matchIndexes_length.
    destruct (scanBody_in_range queryWords bodyWords i
                (occurrences bodyWords (at_ queryWords i)) 0 0 best) as [best' E].
    + simpl. apply Hocc.
    + rewrite E. apply IH.
Qed.

Lemma lowerChar_outside_syntax (c : ascii) :
  outside syntaxCharacters c = true -> outside syntaxCharacters (lowerChar c) = true.
Proof.
  destruct c as [b0 b1 b2 b3 b4 b5 b6 b7].
  destruct b0, b1, b2, b3, b4, b5, b6, b7; vm_compute; auto.
Qed.

Lemma toLocaleLowerCase_outside_syntax (s : string) :
  forallChars (outside syntaxCharacters) s = true ->
  forallChars (outside syntaxCharacters) (toLocaleLowerCase s) = true.
Proof.
  induction s as [|c rest IH]; simpl; [reflexivity|].
  intro H. apply andb_prop in H. destruct H as [Hc Hrest].
  now rewrite (lowerChar_outside_syntax _ Hc), IH.
Qed.

Lemma hasSyntaxCharacter_outside (s : string) :
  hasSyntaxCharacter s = negb (forallChars (outside syntaxCharacters) s).
Proof.
  induction s as [|c rest IH]; cbn [hasSyntaxCharacter forallChars]; [reflexivity|].
  rewrite IH. unfold outside. now destruct (charIn c syntaxCharacters).
Qed.

(** The normalizer brings no syntax character into a text. *)
Lemma getConfiguredText_no_syntax (text : string)
    (isCaseSensitive shouldMatchPunctuation shouldCollapseWhitespace : bool) :
  hasSyntaxCharacter text = false ->
  hasSyntaxCharacter (getConfiguredText text isCaseSensitive shouldMatchPunctuation
                                        shouldCollapseWhitespace) = false.
Proof.
  rewrite !hasSyntaxCharacter_outside, !negb_false_iff. intro H.
  unfold getConfiguredText, replaceWhiteSpaceRuns.
  assert (H1 : forallChars (outside syntaxCharacters)
                 (if negb isCaseSensitive then toLocaleLowerCase text else text) = true).
  { destruct isCaseSensitive; simpl; [exact H|].
    now apply toLocaleLowerCase_outside_syntax. }
  assert (H2 : forallChars (outside syntaxCharacters)
                 (if negb shouldMatchPunctuation
                  then replaceClass ".,'!$^*;:{}`~()" ""
                         (replaceClass "/#%&=-" " "
                            (if negb isCaseSensitive then toLocaleLowerCase text else text))
                  else if negb isCaseSensitive then toLocaleLowerCase text else text)
               = true).
  { destruct shouldMatchPunctuation; simpl negb; cbv iota; [exact H1|].
    apply replaceClass_forallChars; [reflexivity|].
    apply replaceClass_forallChars; [reflexivity | exact H1]. }
  destruct shouldCollapseWhitespace; [|exact H2].
  apply collapseFrom_forallChars; [reflexivity | exact H2].
Qed.

(** X1.  In the default mode of the tokenizer, [search] returns a number
    for every query without a syntax character, whatever the body and the
    other options are: the tokens alternate between word tokens and
    separators, so no word occurs at more than every other place of the
    body, and the inner loop of the consecutive scorer stays in range. *)
Theorem search_returns_in_default_mode (hostRegExp : string -> option (string -> nat))
    (inputs : SearchInputs) :
  hasSyntaxCharacter (query inputs) = false ->
  ToBoolean (shouldMatchWhitespaceAndPunctuation (effectiveOptions (options inputs)))
  = true ->
  exists v, outcome (search hostRegExp inputs) = Return v.
Proof.
  intros Hquery Hmode. unfold search.
  set (o := effectiveOptions (options inputs)) in *.
  rewrite Hmode.
  set (fq := getConfiguredText (query inputs) _ _ _).
  set (fb := getConfiguredText (body inputs) _ _ _).
  assert (Hfq : hasSyntaxCharacter fq = false)
    by (subst fq; now apply getConfiguredText_no_syntax).
  unfold getExactContainingMatchScore. rewrite Hfq.
  unfold getWords, getConsecutiveWordSequenceMatchScore.
  destruct (scanQuery_in_range (splitNonWord fq) (splitNonWord fb)
              (List.length (splitNonWord fq)) (splitNonWord_occurrences fb) 0
              {| mostConsecutiveWords := 0; longestConsecutiveWordSequence := 0 |})
    as [best E].
  rewrite E. clearbody o fq fb.
  case_guards o;
  run_search; eexists; reflexivity.
Qed.

(** X1, on an input: the query [quick fox] with the default options. *)
Lemma search_returns_in_default_mode_witness :
  let inputs := {| query := "quick fox";
                   body := "The quick brown fox jumps over the lazy dog";
                   options := None |} in
  hasSyntaxCharacter (query inputs) = false /\
  ToBoolean (shouldMatchWhitespaceAndPunctuation (effectiveOptions (options inputs)))
  = true /\
  exists v, outcome (search rejectingHost inputs) = Return v.
Proof.
  intro inputs.
  assert (Hquery : hasSyntaxCharacter (query inputs) = false) by reflexivity.
  assert (Hmode : ToBoolean (shouldMatchWhitespaceAndPunctuation
                               (effectiveOptions (options inputs))) = true)
    by reflexivity.
  split; [exact Hquery|]. split; [exact Hmode|].
  exact (search_returns_in_default_mode rejectingHost inputs Hquery Hmode).
Defined.

(* ================================================================== *)
(** * The default mode keeps the delimiters *)
(* ================================================================== *)

Lemma splitFrom_nonempty (s : string) :
  forall (inSep : bool) (tok : string), splitFrom inSep tok s <> [].
Proof.
  induction s as [|c rest IH]; intros inSep tok; simpl.
  - destruct inSep; discriminate.
  - destruct (isWordChar c), inSep; try discriminate; apply IH.
Qed.

Lemma splitFrom_concat (s : string) :
  forall (inSep : bool) (tok : string),
  String.concat EmptyString (splitFrom inSep tok s) = (tok ++ s)%string.
Proof.
  induction s as [|c rest IH]; intros inSep tok; simpl.
  - destruct inSep; simpl; now rewrite ?append_empty_r.
  - assert (Hcons : forall l : list string,
              l <> [] ->
              String.concat EmptyString (tok :: l) =
              (tok ++ String.concat EmptyString l)%string).
    { intros [|x l] Hl; [congruence | reflexivity]. }
    destruct (isWordChar c), inSep;
      try (rewrite (Hcons _ (splitFrom_nonempty rest _ _)), IH; reflexivity);
      rewrite IH; unfold snoc; now rewrite append_assoc.
Qed.

Lemma isSeparator_snoc (t : string) (c : ascii) :
  isWordChar c = false ->
  (t = EmptyString \/ isSeparator t = true) ->
  isSeparator (snoc t c) = true.
Proof.
  intros Hc Ht. unfold isSeparator, snoc.
  rewrite forallChars_append. cbn [forallChars]. rewrite Hc. cbn [negb andb].
  destruct Ht as [->|Ht]; [reflexivity|].
  unfold isSeparator in Ht. apply andb_prop in Ht. destruct Ht as [_ Ht].
  rewrite Ht. destruct t; reflexivity.
Qed.

Lemma snoc_nonempty (t : string) (c : ascii) : String.eqb (snoc t c) EmptyString = false.
Proof. destruct t; reflexivity. Qed.

(** The tokens the split returns: from a run of word characters being
    read, a well split list; from a separator being read, the separator
    and a well split list behind it. *)
Lemma splitFrom_wellSplit (s : string) :
  forall tok : string,
  (isWordToken tok = true ->
   forall first : bool,
   first || negb (String.eqb tok EmptyString) = true ->
   wellSplit first (splitFrom false tok s) = true) /\
  (isSeparator tok = true ->
   exists sep rest,
     splitFrom true tok s = sep :: rest /\
     isSeparator sep = true /\ wellSplit false rest = true).
Proof.
  induction s as [|c s IH]; intro tok.
  - split.
    + intros Htok first _. exact Htok.
    + intro Hsep. exists tok, [EmptyString]. now repeat split.
  - cbn [splitFrom]. destruct (isWordChar c) eqn:Hc; split.
    + intros Htok first _. apply (proj1 (IH (snoc tok c))).
      * now rewrite isWordToken_snoc, Htok, Hc.
      * rewrite snoc_nonempty. apply orb_true_r.
    + intro Hsep. exists tok, (splitFrom false (String c EmptyString) s).
      split; [reflexivity|]. split; [exact Hsep|].
      apply (proj1 (IH (String c EmptyString))); [|reflexivity].
      unfold isWordToken. cbn [forallChars]. now rewrite Hc.
    + intros Htok first Hfirst.
      destruct (proj2 (IH (String c EmptyString))) as (sep & rest & E & Hsep & Hrest).
      { unfold isSeparator. cbn [forallChars]. now rewrite Hc. }
      rewrite E. cbn [wellSplit]. now rewrite Htok, Hfirst, Hsep, Hrest.
    + intro Hsep. apply (proj2 (IH (snoc tok c))).
      apply isSeparator_snoc; [exact Hc | now right].
Qed.

Lemma splitFrom_word (w : string) :
  isWordToken w = true ->
  forall tok s : string,
  splitFrom false tok (w ++ s) = splitFrom false (tok ++ w) s.
Proof.
  unfold isWordToken. induction w as [|c w IH]; intros Hw tok s.
  - now rewrite append_empty_r.
  - cbn [forallChars] in Hw. apply andb_prop in Hw. destruct Hw as [Hc Hw].
    cbn [append splitFrom]. rewrite Hc, (IH Hw). unfold snoc.
    now rewrite append_assoc.
Qed.

Lemma splitFrom_separator (sep : string) :
  forallChars (fun c => negb (isWordChar c)) sep = true ->
  forall tok s : string,
  splitFrom true tok (sep ++ s) = splitFrom true (tok ++ sep) s.
Proof.
  induction sep as [|c sep IH]; intros Hsep tok s.
  - now rewrite append_empty_r.
  - cbn [forallChars] in Hsep. apply andb_prop in Hsep. destruct Hsep as [Hc Hsep].
    apply negb_true_iff in Hc.
    cbn [append splitFrom]. rewrite Hc, (IH Hsep). unfold snoc.
    now rewrite append_assoc.
Qed.

(** Behind a run of word characters, a separator starts a token. *)
Lemma splitFrom_word_separator (sep : string) :
  isSeparator sep = true ->
  forall tok s : string,
  splitFrom false tok (sep ++ s) = tok :: splitFrom true sep s.
Proof.
  unfold isSeparator. intros H tok s. apply andb_prop in H. destruct H as [Hne Hsep].
  destruct sep as [|c sep]; [discriminate Hne|].
  cbn [forallChars] in Hsep. apply andb_prop in Hsep. destruct Hsep as [Hc Hsep].
  apply negb_true_iff in Hc.
  cbn [append splitFrom]. rewrite Hc.
  now rewrite (splitFrom_separator sep Hsep (String c EmptyString) s).
Qed.

(** Behind a separator, a run of word characters that is not empty starts
    a token. *)
Lemma splitFrom_separator_word (w : string) :
  isWordToken w = true -> w <> EmptyString ->
  forall tok s : string,
  splitFrom true tok (w ++ s) = tok :: splitFrom false w s.
Proof.
  unfold isWordToken. intros Hw Hne tok s.
  destruct w as [|c w]; [congruence|].
  cbn [forallChars] in Hw. apply andb_prop in Hw. destruct Hw as [Hc Hw].
  cbn [append splitFrom]. rewrite Hc.
  now rewrite (splitFrom_word w Hw (String c EmptyString) s).
Qed.

(** A well split list is what the split of its concatenation returns. *)
Lemma wellSplit_splitFrom (n : nat) :
  forall (tokens : list string) (first : bool),
  List.length tokens <= n ->
  wellSplit first tokens = true ->
  splitFrom false EmptyString (String.concat EmptyString tokens) = tokens.
Proof.
  induction n as [|n IH]; intros tokens first Hn H.
  - destruct tokens; [discriminate H | cbn in Hn; lia].
  - destruct tokens as [|w [|sep rest]]; [discriminate H| |].
    + cbn [wellSplit] in H. cbn [String.concat].
      pose proof (splitFrom_word w H EmptyString EmptyString) as E.
      rewrite append_empty_r in E. now rewrite E.
    + cbn [wellSplit] in H.
      apply andb_prop in H. destruct H as [H Hrest].
      apply andb_prop in H. destruct H as [H Hsep].
      apply andb_prop in H. destruct H as [Hw _].
      assert (Hlen : List.length rest <= n) by (cbn [List.length] in Hn; lia).
      specialize (IH rest false Hlen Hrest).
      destruct rest as [|w' rest']; [discriminate Hrest|].
      change (String.concat EmptyString (w :: sep :: w' :: rest'))
        with (w ++ sep ++ String.concat EmptyString (w' :: rest'))%string.
      rewrite (splitFrom_word w Hw EmptyString). cbn [append].
      rewrite (splitFrom_word_separator sep Hsep w). f_equal.
      destruct rest' as [|sep' rest''].
      * cbn [String.concat]. cbn [wellSplit] in Hrest.
        destruct w' as [|c w'']; [reflexivity|].
        pose proof (splitFrom_separator_word (String c w'') Hrest ltac:(discriminate)
                      sep EmptyString) as E.
        rewrite append_empty_r in E. now rewrite E.
      * assert (Hw' : isWordToken w' = true /\ w' <> EmptyString).
        { cbn [wellSplit] in Hrest.
          apply andb_prop in Hrest. destruct Hrest as [Hr _].
          apply andb_prop in Hr. destruct Hr as [Hr _].
          apply andb_prop in Hr. destruct Hr as [Hr1 Hr2]. split; [exact Hr1|].
          cbn [orb] in Hr2. apply negb_true_iff in Hr2. intros ->. discriminate Hr2. }
        destruct Hw' as [Hw' Hne'].
        change (String.concat EmptyString (w' :: sep' :: rest''))
          with (w' ++ String.concat EmptyString (sep' :: rest''))%string in IH |- *.
        rewrite (splitFrom_separator_word w' Hw' Hne'). f_equal.
        rewrite (splitFrom_word w' Hw' EmptyString) in IH. exact IH.
Qed.

(** X2.  In the default mode the tokens are the pieces of the text in
    order, delimiters included: put together they give the text back.
    They are runs of word characters with, between every two of them, a
    run of non-word characters that is not empty; a run of word characters
    is empty at most when it is the first or the last token.  No other
    list of tokens is such a cutting of the text. *)
Theorem splitNonWord_keeps_delimiters (text : string) :
  getWords text true true = splitNonWord text /\
  getWords text true false = splitNonWord text /\
  String.concat EmptyString (splitNonWord text) = text /\
  alternates true (splitNonWord text) = true /\
  wellSplit true (splitNonWord text) = true /\
  (forall tokens : list string,
     wellSplit true tokens = true ->
     String.concat EmptyString tokens = text ->
     tokens = splitNonWord text).
Proof.
  split; [reflexivity|]. split; [reflexivity|]. split; [|split; [|split]].
  - apply (splitFrom_concat text false EmptyString).
  - apply splitNonWord_alternates.
  - apply (proj1 (splitFrom_wellSplit text EmptyString)); reflexivity.
  - intros tokens Hsplit <-. symmetry.
    apply (wellSplit_splitFrom (List.length tokens) tokens true (Nat.le_refl _) Hsplit).
Qed.

(* ================================================================== *)
(** * The examples of the specification *)
(* ================================================================== *)

(** The worked examples: the query [quick fox] scores 37.5 on the
    sentence of the fox and 0.6 (as binary64 has it) on an unrelated text;
    [Fox] on [fox] scores 0 when the search is case sensitive and 133.5
    when it is not; [x] on [x] scores 124.5, above the exact-match weight
    70; and [abc] occurs three times in [abc abc abc]. *)
Example specification_examples :
  outcome (search rejectingHost
             {| query := "quick fox";
                body := "The quick brown fox jumps over the lazy dog";
                options := None |}) = Return 37.5%float /\
  outcome (search rejectingHost
             {| query := "quick fox"; body := "completely unrelated text";
                options := None |}) = Return 0x1.3333333333334p-1%float /\
  (0x1.3333333333334p-1 <? 37.5)%float = true /\
  outcome (search rejectingHost
             {| query := "Fox"; body := "fox"; options := Some caseSensitive |})
  = Return 0%float /\
  outcome (search rejectingHost {| query := "Fox"; body := "fox"; options := None |})
  = Return 133.5%float /\
  outcome (search rejectingHost {| query := "x"; body := "x"; options := None |})
  = Return 124.5%float /\
  getExactContainingMatchScore rejectingHost "abc" "abc abc abc" = Return 3.
Proof. repeat split; vm_compute; reflexivity. Qed.

(* ================================================================== *)
(** * The exceptions of [search] *)
(* ================================================================== *)

(** The exact-containing matcher throws nothing but the [SyntaxError] of
    the host, on a pattern with a syntax character. *)
Lemma getExactContainingMatchScore_throw (hostRegExp : string -> option (string -> nat))
    (query body : string) (e : exception) :
  getExactContainingMatchScore hostRegExp query body = Throw e <->
  e = SyntaxError /\ hasSyntaxCharacter query = true /\ hostRegExp query = None.
Proof.
  unfold getExactContainingMatchScore.
  destruct (hasSyntaxCharacter query); [|split; [discriminate | intros (_ & H & _); discriminate H]].
  destruct (hostRegExp query) as [matches|]; split.
  - discriminate.
  - intros (_ & _ & H). discriminate H.
  - intro H. injection H as <-. repeat split.
  - intros (-> & _). reflexivity.
Qed.

Lemma scanBody_throws_TypeError (queryWords bodyWords : list string) (firstQueryWord : nat)
    (remaining : nat) :
  forall (k run sequence : nat) (best : maxima) (e : exception),
  scanBody queryWords bodyWords firstQueryWord remaining k run sequence best = Throw e ->
  e = TypeError.
Proof.
  induction remaining as [|r IH]; intros k run sequence best e; simpl; [discriminate|].
  destruct (negb _); [discriminate|].
  destruct (at_ bodyWords (k + run)) as [w|]; [apply IH | congruence].
Qed.

Lemma scanQuery_throws_TypeError (queryWords bodyWords : list string) (remaining : nat) :
  forall (firstQueryWord : nat) (best : maxima) (e : exception),
  scanQuery queryWords bodyWords remaining firstQueryWord best = Throw e -> e = TypeError.
Proof.
  induction remaining as [|r IH]; intros i best e; simpl; [discriminate|].
  destruct (scanBody _ _ _ _ _ _ _ _) as [best'|e'] eqn:E.
  - apply IH.
  - intro H. injection H as <-. exact (scanBody_throws_TypeError _ _ _ _ _ _ _ _ _ E).
Qed.

Lemma getConsecutiveWordSequenceMatchScore_throw (queryWords bodyWords : list string)
    (wordMultiplier sequenceMultiplier : number) (e : exception) :
  getConsecutiveWordSequenceMatchScore queryWords bodyWords wordMultiplier
                                       sequenceMultiplier = Throw e ->
  e = TypeError.
Proof.
  unfold getConsecutiveWordSequenceMatchScore.
  destruct (scanQuery _ _ _ _ _) as [best|e'] eqn:E; [discriminate|].
  intro H. injection H as <-. exact (scanQuery_throws_TypeError _ _ _ _ _ _ E).
Qed.

(** The outcome of [search] is decided by the two scorers that can throw,
    in the order [search] comes to them. *)
Lemma search_outcome (hostRegExp : string -> option (string -> nat))
    (inputs : SearchInputs) :
  let o := effectiveOptions (options inputs) in
  let containing :=
    if enabled o ExactContainingMatch
    then getExactContainingMatchScore hostRegExp (formatted o (query inputs))
                                      (formatted o (body inputs))
    else Return 0 in
  let consecutive :=
    if enabled o ConsecutiveWordSequenceMatch
    then getConsecutiveWordSequenceMatchScore
           (wordsOf o (query inputs)) (wordsOf o (body inputs))
           (ToNumber (consecutiveWordMatchLengthMultiplier o))
           (ToNumber (consecutiveWordSequenceLengthMultiplier o))
    else Return {| consecutiveWordScore := 0%float;
                   consecutiveWordSequenceScore := 0%float |} in
  forall e : exception,
  outcome (search hostRegExp inputs) = Throw e <->
  containing = Throw e \/ ((exists n, containing = Return n) /\ consecutive = Throw e).
Proof.
  intros o containing consecutive. subst containing consecutive.
  unfold search, wordsOf, formatted, enabled. fold o.
  set (fq := getConfiguredText (query inputs) _ _ _).
  set (fb := getConfiguredText (body inputs) _ _ _).
  set (qw := getWords fq _ _). set (bw := getWords fb _ _).
  clearbody o fq fb qw bw.
  case_guards o;
    try destruct (getExactContainingMatchScore hostRegExp fq fb) as [n|e0];
    try (destruct (getConsecutiveWordSequenceMatchScore qw bw _ _) as [cs|e1]);
    run_search; intro e;
    (split;
     [ intro H;
       first [ discriminate H
             | injection H as <-;
               first [ left; reflexivity
                     | right; split; [eexists; reflexivity | reflexivity] ] ]
     | intros [H | [[n' H1] H2]];
       first [ discriminate H | discriminate H1 | discriminate H2
             | injection H as <-; reflexivity
             | injection H2 as <-; reflexivity ] ]).
Qed.

(** X3.  [search] throws in two ways only.  It throws the [SyntaxError]
    of the host exactly when the exact-containing strategy is on and the
    host refuses the normalized query as a pattern; with the exact-containing
    point weight at 0 the pattern is never built.  It throws a [TypeError]
    exactly when that did not happen, the consecutive scorer is called and
    throws; this needs the word-only mode of the tokenizer.  In every other
    case it returns a number. *)
Theorem search_exceptions (hostRegExp : string -> option (string -> nat))
    (inputs : SearchInputs) :
  let o := effectiveOptions (options inputs) in
  let r := search hostRegExp inputs in
  let formattedQuery := formatted o (query inputs) in
  let consecutive :=
    getConsecutiveWordSequenceMatchScore
      (wordsOf o (query inputs)) (wordsOf o (body inputs))
      (ToNumber (consecutiveWordMatchLengthMultiplier o))
      (ToNumber (consecutiveWordSequenceLengthMultiplier o)) in
  let refused :=
    enabled o ExactContainingMatch = true /\
    hasSyntaxCharacter formattedQuery = true /\ hostRegExp formattedQuery = None in
  (outcome r = Throw SyntaxError <-> refused) /\
  (outcome r = Throw TypeError <->
   ~ refused /\ enabled o ConsecutiveWordSequenceMatch = true /\
   consecutive = Throw TypeError) /\
  (outcome r = Throw TypeError ->
   ToBoolean (shouldMatchWhitespaceAndPunctuation o) = false) /\
  ((exists v, outcome r = Return v) <->
   ~ refused /\
   (enabled o ConsecutiveWordSequenceMatch = true -> consecutive <> Throw TypeError)).
Proof.
  intros o r formattedQuery consecutive refused.
  pose proof (search_outcome hostRegExp inputs) as Hout.
  cbv zeta in Hout. fold o in Hout. fold r in Hout. fold formattedQuery in Hout.
  fold consecutive in Hout.
  set (fb := formatted o (body inputs)) in *.
  assert (Hcontaining : forall e,
            (if enabled o ExactContainingMatch
             then getExactContainingMatchScore hostRegExp formattedQuery fb
             else Return 0) = Throw e <-> e = SyntaxError /\ refused).
  { intro e. subst refused. destruct (enabled o ExactContainingMatch).
    - rewrite getExactContainingMatchScore_throw. tauto.
    - split; [discriminate | intros (_ & H & _); discriminate H]. }
  assert (Hreturns : (exists n,
            (if enabled o ExactContainingMatch
             then getExactContainingMatchScore hostRegExp formattedQuery fb
             else Return 0) = Return n) <-> ~ refused).
  { pose proof (Hcontaining SyntaxError) as H.
    destruct (if enabled o ExactContainingMatch
              then getExactContainingMatchScore hostRegExp formattedQuery fb
              else Return 0) as [n|e] eqn:E.
    - split; [|intros _; now exists n].
      intros _ Href. assert (Hd : Return n = Throw SyntaxError) by (apply H; now split).
      discriminate Hd.
    - split; [intros [n Hn]; discriminate Hn|].
      intro Hnot. exfalso. apply Hnot.
      exact (proj2 (proj1 (Hcontaining e) eq_refl)). }
  assert (Hconsecutive : forall e,
            (if enabled o ConsecutiveWordSequenceMatch
             then consecutive
             else Return {| consecutiveWordScore := 0%float;
                            consecutiveWordSequenceScore := 0%float |}) = Throw e <->
            e = TypeError /\ enabled o ConsecutiveWordSequenceMatch = true /\
            consecutive = Throw TypeError).
  { intro e. destruct (enabled o ConsecutiveWordSequenceMatch).
    - split.
      + intro H. pose proof (getConsecutiveWordSequenceMatchScore_throw _ _ _ _ _ H) as ->.
        now repeat split.
      + intros (-> & _ & H). exact H.
    - split; [discriminate | intros (_ & H & _); discriminate H]. }
  assert (Hsyntax : outcome r = Throw SyntaxError <-> refused).
  { rewrite Hout, Hcontaining, Hconsecutive. split.
    - intros [[_ H] | [_ (H & _)]]; [exact H | discriminate H].
    - intro H. left. now split. }
  assert (Htype : outcome r = Throw TypeError <->
                  ~ refused /\ enabled o ConsecutiveWordSequenceMatch = true /\
                  consecutive = Throw TypeError).
  { rewrite Hout, Hcontaining, Hconsecutive, Hreturns. split.
    - intros [[H _] | [Hnot (_ & H)]]; [discriminate H | now split].
    - intros [Hnot H]. right. split; [exact Hnot | now split]. }
  split; [exact Hsyntax|]. split; [exact Htype|]. split.
  - intro H. apply Htype in H. destruct H as (_ & _ & H).
    destruct (ToBoolean (shouldMatchWhitespaceAndPunctuation o)) eqn:Hmode; [|reflexivity].
    exfalso. subst consecutive. unfold wordsOf, getWords in H. rewrite Hmode in H.
    unfold getConsecutiveWordSequenceMatchScore in H.
    destruct (scanQuery_in_range (splitNonWord (formatted o (query inputs)))
                (splitNonWord (formatted o (body inputs)))
                (List.length (splitNonWord (formatted o (query inputs))))
                (splitNonWord_occurrences (formatted o (body inputs))) 0
                {| mostConsecutiveWords := 0; longestConsecutiveWordSequence := 0 |})
      as [best E].
    rewrite E in H. discriminate H.
  - destruct (outcome r) as [v|e] eqn:E.
    + split; [|intros _; now exists v].
      intros _. split.
      * intro Href. apply Hsyntax in Href. discriminate Href.
      * intros Hen Hthrow.
        assert (Hd : Return v = Throw TypeError).
        { apply Htype. split; [|now split].
          intro Href. apply Hsyntax in Href. discriminate Href. }
        discriminate Hd.
    + split; [intros [v Hv]; discriminate Hv|].
      intros [Hnot Hcons]. exfalso. destruct e.
      * apply Hnot. now apply Hsyntax.
      * destruct (proj1 Htype eq_refl) as (_ & Hen & Hthrow). exact (Hcons Hen Hthrow).
Qed.

(* ================================================================== *)
(** * The exact-containing matcher on a pattern that matches itself *)
(* ================================================================== *)

Lemma prefix_append (pattern subject : string) :
  String.prefix pattern subject = true <->
  exists rest, subject = (pattern ++ rest)%string.
Proof.
  revert subject. induction pattern as [|a p IH]; intro subject.
  - split; [intros _; now exists subject | intros _; now destruct subject].
  - destruct subject as [|b s]; simpl.
    + split; [discriminate | intros [rest H]; discriminate H].
    + destruct (ascii_dec a b) as [->|Hne].
      * rewrite IH. split; intros [rest H]; exists rest; congruence.
      * split; [discriminate | intros [rest H]; congruence].
Qed.

Lemma append_length (a b : string) :
  String.length (a ++ b) = String.length a + String.length b.
Proof. induction a as [|x a IH]; simpl; [reflexivity | now rewrite IH]. Qed.

Lemma prefix_length (pattern subject : string) :
  String.prefix pattern subject = true -> String.length pattern <= String.length subject.
Proof.
  intro H. apply prefix_append in H. destruct H as [rest ->].
  rewrite append_length. lia.
Qed.

(** The matches do not overlap: each takes the length of the pattern out
    of what is left of the subject. *)
Lemma countLiteralFrom_bound (pattern : string) (subject : string) :
  pattern <> EmptyString ->
  forall skip : nat,
  String.length pattern * countLiteralFrom pattern skip subject + skip <=
  Nat.max (String.length subject) skip.
Proof.
  intro Hne.
  assert (Hpos : 1 <= String.length pattern) by (destruct pattern; [congruence | simpl; lia]).
  induction subject as [|c rest IH]; intro skip.
  - destruct skip as [|k]; cbn [countLiteralFrom String.length]; [|lia].
    destruct pattern; [congruence | cbn [String.prefix]; lia].
  - change (String.length (String c rest)) with (S (String.length rest)).
    destruct skip as [|k]; cbn [countLiteralFrom].
    + destruct (String.prefix pattern (String c rest)) eqn:Hp.
      * apply prefix_length in Hp.
        change (String.length (String c rest)) with (S (String.length rest)) in Hp.
        specialize (IH (String.length pattern - 1)).
        rewrite Nat.mul_succ_r. lia.
      * specialize (IH 0). lia.
    + specialize (IH k). lia.
Qed.

(** The scan finds the first occurrence of the pattern. *)
Lemma countLiteral_positive (pattern subject : string) :
  1 <= countLiteral pattern subject <-> occursIn pattern subject.
Proof.
  unfold countLiteral, occursIn.
  induction subject as [|c rest IH]; cbn [countLiteralFrom].
  - destruct (String.prefix pattern EmptyString) eqn:Hp.
    + split; [|intros _; lia]. intros _. apply prefix_append in Hp.
      destruct Hp as [after H]. now exists EmptyString, after.
    + split; [lia|]. intros (before & after & H). exfalso.
      destruct before; [|discriminate H]. simpl in H.
      assert (Hp' : String.prefix pattern EmptyString = true)
        by (apply prefix_append; now exists after).
      congruence.
  - destruct (String.prefix pattern (String c rest)) eqn:Hp.
    + split; [|intros _; lia]. intros _. apply prefix_append in Hp.
      destruct Hp as [after H]. now exists EmptyString, after.
    + rewrite IH. split.
      * intros (before & after & ->). now exists (String c before), after.
      * intros (before & after & H). destruct before as [|b before]; simpl in H.
        -- assert (Hp' : String.prefix pattern (String c rest) = true)
             by (apply prefix_append; now exists after).
           congruence.
        -- injection H as _ ->. now exists before, after.
Qed.

Lemma countLiteralFrom_skip (pattern : string) (passed : string) :
  forall rest : string,
  countLiteralFrom pattern (String.length passed) (passed ++ rest) =
  countLiteralFrom pattern 0 rest.
Proof.
  induction passed as [|c passed IH]; intro rest; simpl; [reflexivity | apply IH].
Qed.

(** A subject equal to the pattern has one match. *)
Lemma countLiteral_self (pattern : string) : countLiteral pattern pattern = 1.
Proof.
  unfold countLiteral. destruct pattern as [|c p]; [reflexivity|].
  cbn [countLiteralFrom].
  assert (Hp : String.prefix (String c p) (String c p) = true)
    by (apply prefix_append; exists EmptyString; now rewrite append_empty_r).
  rewrite Hp. f_equal.
  replace (String.length (String c p) - 1) with (String.length p) by (simpl; lia).
  transitivity (countLiteralFrom (String c p) (String.length p) (p ++ EmptyString)).
  - now rewrite append_empty_r.
  - rewrite countLiteralFrom_skip. reflexivity.
Qed.

(** An occurrence of the pattern has a first one. *)
Lemma firstOccurrence_exists (pattern subject : string) :
  occursIn pattern subject ->
  exists before after,
    subject = (before ++ pattern ++ after)%string /\
    firstOccurrence pattern before after.
Proof.
  induction subject as [|c rest IH]; intros (before & after & H).
  - destruct before; [|discriminate H]. exists EmptyString, after.
    split; [exact H|]. intros before' after' _. cbn. lia.
  - destruct (String.prefix pattern (String c rest)) eqn:Hp.
    + apply prefix_append in Hp. destruct Hp as [after0 E].
      exists EmptyString, after0. split; [exact E|].
      intros before' after' _. cbn. lia.
    + destruct before as [|b before]; cbn [append] in H.
      * assert (Hp' : String.prefix pattern (String c rest) = true)
          by (apply prefix_append; now exists after).
        congruence.
      * injection H as <- ->.
        destruct (IH (ex_intro _ before (ex_intro _ after eq_refl)))
          as (before0 & after0 & E & Hfirst).
        exists (String c before0), after0. split; [cbn [append]; now rewrite E|].
        intros before' after' H'. destruct before' as [|b' before']; cbn [append] in H'.
        -- assert (Hp' : String.prefix pattern (String c (before ++ pattern ++ after)) = true).
           { apply prefix_append. exists after'. rewrite E. exact H'. }
           congruence.
        -- injection H' as _ H'. specialize (Hfirst before' after' H').
           cbn [String.length]. lia.
Qed.

(** The scan counts the first occurrence and goes on behind it. *)
Lemma countLiteral_first (pattern : string) (before : string) :
  pattern <> EmptyString ->
  forall after : string,
  firstOccurrence pattern before after ->
  countLiteral pattern (before ++ pattern ++ after) = S (countLiteral pattern after).
Proof.
  intro Hne. unfold countLiteral.
  induction before as [|b before IH]; intros after Hfirst.
  - destruct pattern as [|c p]; [congruence|]. cbn [append countLiteralFrom].
    assert (Hp : String.prefix (String c p) (String c (p ++ after)) = true)
      by (apply prefix_append; now exists after).
    rewrite Hp. f_equal.
    replace (String.length (String c p) - 1) with (String.length p) by (cbn; lia).
    apply countLiteralFrom_skip.
  - cbn [append countLiteralFrom].
    destruct (String.prefix pattern (String b (before ++ pattern ++ after))) eqn:Hp.
    + apply prefix_append in Hp. destruct Hp as [rest E].
      specialize (Hfirst EmptyString rest E). cbn in Hfirst. lia.
    + apply IH. intros before' after' H.
      specialize (Hfirst (String b before') after'). cbn [append String.length] in Hfirst.
      rewrite H in Hfirst. specialize (Hfirst eq_refl). lia.
Qed.

Lemma leftmostMatches_countLiteral (pattern subject : string) (n : nat) :
  pattern <> EmptyString ->
  leftmostMatches pattern subject n -> countLiteral pattern subject = n.
Proof.
  intro Hne. induction 1 as [subject Hnone | before after n Hfirst _ IH].
  - pose proof (countLiteral_positive pattern subject) as H.
    destruct (countLiteral pattern subject); [reflexivity|].
    exfalso. apply Hnone, H. lia.
  - now rewrite (countLiteral_first pattern before Hne after Hfirst), IH.
Qed.

Lemma countLiteral_leftmostMatches (pattern : string) :
  pattern <> EmptyString ->
  forall (fuel : nat) (subject : string),
  String.length subject <= fuel ->
  leftmostMatches pattern subject (countLiteral pattern subject).
Proof.
  intro Hne.
  assert (Hpos : 1 <= String.length pattern) by (destruct pattern; [congruence | cbn; lia]).
  induction fuel as [|fuel IH]; intros subject Hlen;
    destruct (countLiteral pattern subject) as [|k] eqn:E;
    try (apply noMatch; intro Hocc; apply countLiteral_positive in Hocc; lia).
  - assert (Hocc : occursIn pattern subject) by (apply countLiteral_positive; lia).
    destruct Hocc as (before & after & ->).
    rewrite !append_length in Hlen. lia.
  - assert (Hocc : occursIn pattern subject) by (apply countLiteral_positive; lia).
    destruct (firstOccurrence_exists pattern subject Hocc)
      as (before & after & -> & Hfirst).
    rewrite (countLiteral_first pattern before Hne after Hfirst) in E.
    injection E as <-. apply nextMatch; [exact Hfirst|].
    apply IH. rewrite !append_length in Hlen. lia.
Qed.

(** X4.  On a query without a syntax character the exact-containing
    matcher returns the number of matches of the query as it is written,
    found from left to right without overlap: for a query that is not
    empty, none when the query does not occur in the body, and else one for
    the first occurrence and the matches of what is behind it; for the
    empty query, one at every index of the body.  For a query that is not
    empty, that number times the length of the query is at most the length
    of the body; it is at least 1 exactly when the query occurs in the
    body; and a body equal to the query has one match. *)
Theorem exact_containing_counts_occurrences (hostRegExp : string -> option (string -> nat))
    (query body : string) :
  hasSyntaxCharacter query = false ->
  exists n,
    getExactContainingMatchScore hostRegExp query body = Return n /\
    (query <> EmptyString -> forall n', leftmostMatches query body n' <-> n' = n) /\
    (query = EmptyString -> n = S (String.length body)) /\
    (query <> EmptyString -> String.length query * n <= String.length body) /\
    (1 <= n <-> occursIn query body) /\
    (body = query -> n = 1).
Proof.
  intro H. exists (countLiteral query body).
  unfold getExactContainingMatchScore. rewrite H.
  split; [reflexivity|]. split; [|split; [|split; [|split]]].
  - intros Hne n'. split.
    + intro Hn'. symmetry. now apply leftmostMatches_countLiteral.
    + intros ->.
      apply (countLiteral_leftmostMatches query Hne (String.length body) body (Nat.le_refl _)).
  - intros ->. apply countLiteral_empty.
  - intro Hne. pose proof (countLiteralFrom_bound query body Hne 0) as Hb.
    unfold countLiteral. lia.
  - apply countLiteral_positive.
  - intros ->. apply countLiteral_self.
Qed.

(** X4, on an input: the query [aa] in the body [aaaaa], where the matches
    at the indexes 0 and 2 are counted and the overlapping ones are not. *)
Lemma exact_containing_counts_occurrences_witness :
  hasSyntaxCharacter "aa" = false /\
  getExactContainingMatchScore rejectingHost "aa" "aaaaa" = Return 2 /\
  exists n,
    getExactContainingMatchScore rejectingHost "aa" "aaaaa" = Return n /\
    ("aa" <> EmptyString -> forall n', leftmostMatches "aa" "aaaaa" n' <-> n' = n) /\
    ("aa" = EmptyString -> n = S (String.length "aaaaa")) /\
    ("aa" <> EmptyString -> String.length "aa" * n <= String.length "aaaaa") /\
    (1 <= n <-> occursIn "aa" "aaaaa") /\
    ("aaaaa" = "aa" -> n = 1).
Proof.
  split; [reflexivity|]. split; [reflexivity|].
  exact (exact_containing_counts_occurrences rejectingHost "aa" "aaaaa" eq_refl).
Defined.

(* ================================================================== *)
(** * The tokens of the word-only mode *)
(* ================================================================== *)

Lemma concat_empty_cons (t : string) (tokens : list string) :
  String.concat EmptyString (t :: tokens) = (t ++ String.concat EmptyString tokens)%string.
Proof.
  destruct tokens as [|t' rest]; simpl; [now rewrite append_empty_r | reflexivity].
Qed.

Lemma maximalNonSpaceRuns_tokens (s : string) :
  Forall (fun t => t <> EmptyString /\ forallChars isNonSpace t = true)
         (maximalNonSpaceRuns s).
Proof.
  induction s as [|c rest IH]; simpl; [constructor|].
  destruct (isWhiteSpace c) eqn:Hc; [exact IH|].
  assert (Hone : String c EmptyString <> EmptyString /\
                 forallChars isNonSpace (String c EmptyString) = true).
  { split; [discriminate|]. simpl. unfold isNonSpace. now rewrite Hc. }
  destruct (startsWithWhiteSpace rest); [now constructor|].
  destruct (maximalNonSpaceRuns rest) as [|run runs]; [now constructor|].
  inversion IH as [|? ? [Hne Hrun] Hruns]; subst. constructor; [|exact Hruns].
  split; [discriminate|]. simpl. unfold isNonSpace at 1. now rewrite Hc, Hrun.
Qed.

Lemma maximalNonSpaceRuns_concat (s : string) :
  String.concat EmptyString (maximalNonSpaceRuns s) = keepChars isNonSpace s.
Proof.
  induction s as [|c rest IH]; [reflexivity|].
  cbn [maximalNonSpaceRuns keepChars]. unfold isNonSpace at 1.
  destruct (isWhiteSpace c); [exact IH|]. cbn [negb].
  destruct (startsWithWhiteSpace rest).
  - now rewrite concat_empty_cons, IH.
  - destruct (maximalNonSpaceRuns rest) as [|run runs].
    + now rewrite <- IH.
    + rewrite concat_empty_cons. rewrite concat_empty_cons in IH.
      now rewrite <- IH.
Qed.

Lemma trimEndAux_nonSpace (t : string) :
  forallChars isNonSpace t = true ->
  trimEndAux t = (t, match t with EmptyString => true | String _ _ => false end).
Proof.
  induction t as [|c rest IH]; [reflexivity|].
  cbn [forallChars trimEndAux]. intro H. apply andb_prop in H. destruct H as [Hc Hrest].
  rewrite (IH Hrest). unfold isNonSpace in Hc. apply negb_true_iff in Hc.
  now rewrite Hc, andb_false_r.
Qed.

Lemma trim_nonSpace (t : string) : forallChars isNonSpace t = true -> trim t = t.
Proof.
  intro H. unfold trim.
  assert (Hstart : trimStart t = t).
  { destruct t as [|c rest]; [reflexivity|]. cbn [forallChars] in H.
    apply andb_prop in H. destruct H as [Hc _]. unfold isNonSpace in Hc.
    apply negb_true_iff in Hc. cbn [trimStart]. now rewrite Hc. }
  now rewrite Hstart, trimEndAux_nonSpace.
Qed.

(** X5.  In word-only mode every token is a string without white space
    that is not empty, and the tokens put together are the text with its
    white space taken out.  The filter of the branch whose value is
    dropped would keep every token: returning its value would change
    nothing. *)
Theorem word_only_tokens (text : string) (shouldMatchPunctuation : bool) :
  let tokens := getWords text false shouldMatchPunctuation in
  Forall (fun t => t <> EmptyString /\ forallChars isNonSpace t = true) tokens /\
  String.concat EmptyString tokens = keepChars isNonSpace text /\
  filter (fun word => (0 <? String.length (trim word))%nat) tokens = tokens /\
  orEmpty (option_map (filter (fun word => (0 <? String.length (trim word))%nat))
                      (matchNonSpace text)) = tokens.
Proof.
  intro tokens.
  assert (E : tokens = maximalNonSpaceRuns text).
  { subst tokens. unfold getWords, discard.
    rewrite orEmpty_matchNonSpace. apply nonSpaceFrom_maximalNonSpaceRuns. }
  assert (Hall : Forall (fun t => t <> EmptyString /\ forallChars isNonSpace t = true) tokens)
    by (rewrite E; apply maximalNonSpaceRuns_tokens).
  assert (Hfilter : forall l,
            Forall (fun t => t <> EmptyString /\ forallChars isNonSpace t = true) l ->
            filter (fun word => (0 <? String.length (trim word))%nat) l = l).
  { induction l as [|t rest IH]; intro H; [reflexivity|].
    inversion H as [|? ? [Hne Ht] Hrest]; subst. cbn [filter].
    rewrite (trim_nonSpace t Ht), (IH Hrest).
    destruct t; [congruence | reflexivity]. }
  split; [exact Hall|]. split; [rewrite E; apply maximalNonSpaceRuns_concat|].
  split; [now apply Hfilter|].
  assert (E' : tokens = orEmpty (matchNonSpace text)) by reflexivity.
  rewrite E' in Hall |- *. clear E E'. unfold matchNonSpace in *.
  destruct (nonSpaceFrom None text) as [|t rest]; [reflexivity|].
  cbn [option_map orEmpty] in *. now apply Hfilter.
Qed.

(* ================================================================== *)
(** * The run the consecutive scorer scores *)
(* ================================================================== *)

Lemma runLength_monotone (bodyWords : list string) (m m' : nat) :
  m <= m' -> runLength bodyWords m <= runLength bodyWords m'.
Proof.
  induction 1 as [|m' Hle IH]; [lia|]. cbn [runLength]. lia.
Qed.

Lemma runLength_max (bodyWords : list string) (m m' : nat) :
  Nat.max (runLength bodyWords m) (runLength bodyWords m') =
  runLength bodyWords (Nat.max m m').
Proof.
  destruct (Nat.le_ge_cases m m') as [H|H].
  - rewrite (Nat.max_r m m' H). apply Nat.max_r. now apply runLength_monotone.
  - rewrite (Nat.max_l m m' H). apply Nat.max_l. now apply runLength_monotone.
Qed.

Lemma strictEq_eq (x y : option string) : strictEq x y = true -> x = y.
Proof.
  destruct x as [a|], y as [b|]; simpl; try discriminate; [|reflexivity].
  intro H. apply String.eqb_eq in H. now subst.
Qed.

(** What the inner loop returns, with the run it read before the break. *)
Lemma scanBody_returns_run (queryWords bodyWords : list string) (firstQueryWord : nat)
    (best : maxima) (remaining : nat) :
  forall (k : nat) (result : maxima),
  scanBody queryWords bodyWords firstQueryWord remaining k k (runLength bodyWords k) best =
  Return result ->
  result = best \/
  exists m, k <= m /\
            (forall j, k <= j < m ->
                       agree queryWords bodyWords firstQueryWord j = true /\
                       at_ bodyWords (j + j) <> None) /\
            result = recorded bodyWords m best.
Proof.
  induction remaining as [|r IH]; intros k result; simpl.
  - intro H. left. congruence.
  - destruct (strictEq (at_ queryWords (firstQueryWord + k)) (at_ bodyWords (k + k)))
      eqn:Hagree; simpl.
    + destruct (at_ bodyWords (k + k)) as [w|] eqn:Hw; [|discriminate].
      rewrite <- (runLength_step _ _ _ Hw). intro H.
      destruct (IH _ _ H) as [E | (m & Hm & Hrun & E)]; [now left|].
      right. exists m. split; [lia|]. split; [|exact E].
      intros j Hj. destruct (Nat.eq_dec j k) as [->|Hne].
      * unfold agree. rewrite Hw, Hagree. split; [reflexivity | discriminate].
      * apply Hrun. lia.
    + intro H. right. exists k. split; [lia|]. split; [intros j Hj; lia|].
      unfold recorded. congruence.
Qed.

Lemma recorded_anchoredRun (queryWords bodyWords : list string) (firstQueryWord m : nat)
    (best : maxima) :
  anchoredRun queryWords bodyWords best ->
  (forall j, j < m ->
             agree queryWords bodyWords firstQueryWord j = true /\
             at_ bodyWords (j + j) <> None) ->
  anchoredRun queryWords bodyWords (recorded bodyWords m best).
Proof.
  intros [Hlen Hrun] Hm. unfold anchoredRun, recorded. cbn [mostConsecutiveWords
    longestConsecutiveWordSequence]. split.
  - rewrite Hlen. apply runLength_max.
  - destruct (Nat.le_ge_cases m (mostConsecutiveWords best)) as [H|H].
    + rewrite (Nat.max_l _ _ H). exact Hrun.
    + rewrite (Nat.max_r _ _ H). right. now exists firstQueryWord.
Qed.

Lemma scanQuery_anchoredRun (queryWords bodyWords : list string) (remaining : nat) :
  forall (firstQueryWord : nat) (best result : maxima),
  anchoredRun queryWords bodyWords best ->
  scanQuery queryWords bodyWords remaining firstQueryWord best = Return result ->
  anchoredRun queryWords bodyWords result.
Proof.
  induction remaining as [|r IH]; intros i best result Hbest; simpl.
  - intro H. injection H as <-. exact Hbest.
  - destruct (scanBody _ _ _ _ _ _ _ _) as [best'|e] eqn:E; [|discriminate].
    apply IH.
    destruct (scanBody_returns_run queryWords bodyWords i best _ 0 best' E)
      as [-> | (m & _ & Hrun & ->)]; [exact Hbest|].
    apply (recorded_anchoredRun queryWords bodyWords i m best Hbest).
    intros j Hj. apply Hrun. lia.
Qed.

(** X6.  Whatever the consecutive scorer returns, its two scores come from
    one run: [most] body words read at the indexes 0, 2, 4, ... of the
    body, equal to the query words from some start position on.  The word
    score is [most] times its multiplier and the sequence score is the
    characters of that run times its multiplier.  So [most] is at most the
    number of query words and at most half the body words, rounded up, and
    both maxima are 0 when the first body word is no query word, wherever
    else the query occurs in the body. *)
Theorem consecutive_scores_one_run (queryWords bodyWords : list string)
    (wordMultiplier sequenceMultiplier : number) (scores : consecutiveScores) :
  getConsecutiveWordSequenceMatchScore queryWords bodyWords wordMultiplier
                                       sequenceMultiplier = Return scores ->
  exists most,
    scores = {| consecutiveWordScore := (of_nat most * wordMultiplier)%float;
                consecutiveWordSequenceScore :=
                  (of_nat (runLength bodyWords most) * sequenceMultiplier)%float |} /\
    most <= List.length queryWords /\
    2 * most <= List.length bodyWords + 1 /\
    (most = 0 \/
     exists firstQueryWord,
       forall k, k < most ->
                 at_ queryWords (firstQueryWord + k) = at_ bodyWords (k + k) /\
                 at_ bodyWords (k + k) <> None) /\
    ((forall w, at_ bodyWords 0 = Some w -> includes queryWords w = false) -> most = 0).
Proof.
  unfold getConsecutiveWordSequenceMatchScore.
  destruct (scanQuery _ _ _ _ _) as [best|e] eqn:E; [|discriminate].
  intro H. injection H as <-.
  assert (Hzero : anchoredRun queryWords bodyWords
                    {| mostConsecutiveWords := 0; longestConsecutiveWordSequence := 0 |})
    by (split; [reflexivity | now left]).
  destruct (scanQuery_anchoredRun queryWords bodyWords _ _ _ _ Hzero E) as [Hlen Hrun].
  destruct best as [most longest]. cbn [mostConsecutiveWords
    longestConsecutiveWordSequence] in *. subst longest.
  exists most. split; [reflexivity|].
  assert (Hsegment : most = 0 \/
            exists i, forall k, k < most ->
                                at_ queryWords (i + k) = at_ bodyWords (k + k) /\
                                at_ bodyWords (k + k) <> None).
  { destruct Hrun as [H0 | [i Hi]]; [now left|]. right. exists i.
    intros k Hk. destruct (Hi k Hk) as [Hagree Hdef]. split; [|exact Hdef].
    now apply strictEq_eq. }
  destruct Hsegment as [-> | [i Hi]].
  - split; [lia|]. split; [lia|]. split; [now left | reflexivity].
  - destruct most as [|most'].
    + split; [lia|]. split; [lia|]. split; [now left | reflexivity].
    + destruct (Hi most' ltac:(lia)) as [Hq Hb].
      assert (Hqdef : at_ queryWords (i + most') <> None) by (rewrite Hq; exact Hb).
      apply nth_error_Some in Hqdef, Hb.
      split; [lia|]. split; [lia|]. split; [right; now exists i|].
      intro Hfirst. exfalso.
      destruct (Hi 0 ltac:(lia)) as [Hq0 Hb0]. cbn [Nat.add] in Hq0, Hb0.
      destruct (at_ bodyWords 0) as [w|] eqn:Hw; [|congruence].
      specialize (Hfirst w eq_refl). unfold includes in Hfirst.
      assert (Hin : existsb (String.eqb w) queryWords = true).
      { apply existsb_exists. exists w. split; [|apply String.eqb_refl].
        apply (nth_error_In queryWords (i + 0)). exact Hq0. }
      congruence.
Qed.

(** X6, on an input: the query [x y] on the body [x x y x z] reads the
    run [x], [y] at the body indexes 0 and 2. *)
Lemma consecutive_scores_one_run_witness :
  getConsecutiveWordSequenceMatchScore ["x"; "y"] ["x"; "x"; "y"; "x"; "z"]
                                       2%float 1.5%float =
  Return {| consecutiveWordScore := 4%float; consecutiveWordSequenceScore := 3%float |} /\
  exists most,
    {| consecutiveWordScore := 4%float; consecutiveWordSequenceScore := 3%float |} =
    {| consecutiveWordScore := (of_nat most * 2)%float;
       consecutiveWordSequenceScore :=
         (of_nat (runLength ["x"; "x"; "y"; "x"; "z"] most) * 1.5)%float |} /\
    most <= List.length ["x"; "y"] /\
    2 * most <= List.length ["x"; "x"; "y"; "x"; "z"] + 1 /\
    (most = 0 \/
     exists firstQueryWord,
       forall k, k < most ->
                 at_ ["x"; "y"] (firstQueryWord + k) = at_ ["x"; "x"; "y"; "x"; "z"] (k + k) /\
                 at_ ["x"; "x"; "y"; "x"; "z"] (k + k) <> None) /\
    ((forall w, at_ ["x"; "x"; "y"; "x"; "z"] 0 = Some w -> includes ["x"; "y"] w = false) ->
     most = 0).
Proof.
  split; [vm_compute; reflexivity|].
  apply (consecutive_scores_one_run ["x"; "y"] ["x"; "x"; "y"; "x"; "z"]
           2%float 1.5%float).
  vm_compute; reflexivity.
Defined.

(* ================================================================== *)
(** * [search] reads its texts through the normalizer *)
(* ================================================================== *)




(* ================================================================== *)
(** * What the frequency scorers read of the body *)
(* ================================================================== *)

Lemma includes_countEqual (bodyWords : list string) (word : string) :
  includes bodyWords word = negb (countEqual bodyWords word =? 0)%nat.
Proof.
  unfold includes, countEqual.
  induction bodyWords as [|w rest IH]; [reflexivity|].
  cbn [existsb filter]. rewrite (String.eqb_sym word w).
  destruct (String.eqb w word); [reflexivity | exact IH].
Qed.

Lemma countEqual_Permutation (bodyWords bodyWords' : list string) (word : string) :
  Permutation bodyWords bodyWords' ->
  countEqual bodyWords word = countEqual bodyWords' word.
Proof.
  unfold countEqual.
  induction 1 as [|w l l' _ IH|w w' l|l l' l'' _ IH1 _ IH2]; cbn [filter].
  - reflexivity.
  - destruct (String.eqb w word); cbn [List.length]; now rewrite IH.
  - destruct (String.eqb w word), (String.eqb w' word); reflexivity.
  - now rewrite IH1.
Qed.

Lemma fold_left_ext_in (A B : Type) (f g : A -> B -> A) (l : list B) :
  (forall x, In x l -> forall a, f a x = g a x) ->
  forall a, fold_left f l a = fold_left g l a.
Proof.
  induction l as [|x rest IH]; intros H a; [reflexivity|].
  cbn [fold_left]. rewrite (H x (or_introl eq_refl)).
  apply IH. intros y Hy. apply H. now right.
Qed.

Lemma getSingleWordMatchScore_counts (queryWords bodyWords bodyWords' : list string)
    (multiplier : number) :
  (forall word, In word queryWords ->
                countEqual bodyWords word = countEqual bodyWords' word) ->
  getSingleWordMatchScore queryWords bodyWords multiplier =
  getSingleWordMatchScore queryWords bodyWords' multiplier.
Proof.
  intro H. unfold getSingleWordMatchScore.
  assert (Hshared : filter (fun queryWord => includes bodyWords queryWord) queryWords =
                    filter (fun queryWord => includes bodyWords' queryWord) queryWords).
  { apply filter_ext_in. intros w Hw. now rewrite !includes_countEqual, (H w Hw). }
  rewrite Hshared. apply fold_left_ext_in. intros w Hw score.
  apply filter_In in Hw. destruct Hw as [Hw _].
  specialize (H w Hw). unfold countEqual in H. now rewrite H.
Qed.

Lemma getUniqueSingleWordMatchScore_counts (queryWords bodyWords bodyWords' : list string)
    (multiplier : number) :
  (forall word, In word queryWords -> includes bodyWords word = includes bodyWords' word) ->
  getUniqueSingleWordMatchScore queryWords bodyWords multiplier =
  getUniqueSingleWordMatchScore queryWords bodyWords' multiplier.
Proof.
  intro H. unfold getUniqueSingleWordMatchScore.
  now rewrite (filter_ext_in (fun element => includes bodyWords element)
                             (fun element => includes bodyWords' element) queryWords H).
Qed.

(** X8.  The frequency scorers read the body as a bag of words, and only
    at the words of the query.  Two bodies in which every query word occurs
    equally often get the same score from [getSingleWordMatchScore]; two
    bodies that have the same query words get the same score from
    [getUniqueSingleWordMatchScore].  So the words of the body can be put
    in any order without a change of either score, and when no query word
    is in the body both scores are the number 0 the sum starts from. *)
Theorem frequency_scores_read_counts (queryWords bodyWords bodyWords' : list string)
    (multiplier : number) :
  ((forall word, In word queryWords ->
                 countEqual bodyWords word = countEqual bodyWords' word) ->
   getSingleWordMatchScore queryWords bodyWords multiplier =
   getSingleWordMatchScore queryWords bodyWords' multiplier) /\
  ((forall word, In word queryWords ->
                 includes bodyWords word = includes bodyWords' word) ->
   getUniqueSingleWordMatchScore queryWords bodyWords multiplier =
   getUniqueSingleWordMatchScore queryWords bodyWords' multiplier) /\
  (Permutation bodyWords bodyWords' ->
   getSingleWordMatchScore queryWords bodyWords multiplier =
   getSingleWordMatchScore queryWords bodyWords' multiplier /\
   getUniqueSingleWordMatchScore queryWords bodyWords multiplier =
   getUniqueSingleWordMatchScore queryWords bodyWords' multiplier) /\
  ((forall word, In word queryWords -> includes bodyWords word = false) ->
   getSingleWordMatchScore queryWords bodyWords multiplier = 0%float /\
   getUniqueSingleWordMatchScore queryWords bodyWords multiplier = 0%float).
Proof.
  split; [apply getSingleWordMatchScore_counts|].
  split; [apply getUniqueSingleWordMatchScore_counts|].
  split.
  - intro Hperm. split.
    + apply getSingleWordMatchScore_counts. intros w _.
      now apply countEqual_Permutation.
    + apply getUniqueSingleWordMatchScore_counts. intros w _.
      rewrite !includes_countEqual. now rewrite (countEqual_Permutation _ _ w Hperm).
  - intro H.
    assert (Hshared : filter (fun w => includes bodyWords w) queryWords = []).
    { induction queryWords as [|w rest IH]; [reflexivity|].
      cbn [filter]. rewrite (H w (or_introl eq_refl)).
      apply IH. intros w' Hw'. apply H. now right. }
    unfold getSingleWordMatchScore, getUniqueSingleWordMatchScore.
    rewrite Hshared. split; reflexivity.
Qed.

(** Multiplying one by a number is exact, as multiplying by one is. *)
Lemma mul_one_l (x : number) : (1 * x)%float = x.
Proof.
  apply Prim2SF_inj. rewrite FloatAxioms.mul_spec, Prim2SF_one.
  pose proof (Prim2SF_valid x) as Hvalid.
  destruct (Prim2SF x) as [s|s| |s m e]; unfold SF64mul, SFmul.
  - now destruct s.
  - now destruct s.
  - reflexivity.
  - rewrite xorb_false_l, Pos.mul_comm, Z.add_comm.
    apply round_times_one. exact Hvalid.
Qed.

(** X9.  The two frequency scorers differ by the number of occurrences in
    the body only: when no word of the query occurs twice in the body,
    [getSingleWordMatchScore] and [getUniqueSingleWordMatchScore] return
    the same number for the same multiplier, the factor 1 of the one
    occurrence being exact. *)
Theorem single_is_unique_without_repeats (queryWords bodyWords : list string)
    (multiplier : number) :
  (forall word, In word queryWords -> countEqual bodyWords word <= 1) ->
  getSingleWordMatchScore queryWords bodyWords multiplier =
  getUniqueSingleWordMatchScore queryWords bodyWords multiplier.
Proof.
  intro H. unfold getSingleWordMatchScore, getUniqueSingleWordMatchScore.
  apply fold_left_ext_in. intros w Hw score.
  apply filter_In in Hw. destruct Hw as [Hw Hin].
  specialize (H w Hw). rewrite includes_countEqual in Hin.
  apply negb_true_iff, Nat.eqb_neq in Hin.
  assert (Hone : countEqual bodyWords w = 1) by lia.
  unfold countEqual in Hone. rewrite Hone.
  change (of_nat 1) with 1%float. now rewrite mul_one_l.
Qed.

(** X9, on an input: the query words [a b z] on the body [b c a]. *)
Lemma single_is_unique_without_repeats_witness :
  (forall word, In word ["a"; "b"; "z"] -> countEqual ["b"; "c"; "a"] word <= 1) /\
  getSingleWordMatchScore ["a"; "b"; "z"] ["b"; "c"; "a"] 1.5%float =
  getUniqueSingleWordMatchScore ["a"; "b"; "z"] ["b"; "c"; "a"] 1.5%float.
Proof.
  assert (H : forall word, In word ["a"; "b"; "z"] -> countEqual ["b"; "c"; "a"] word <= 1).
  { intros word [<-|[<-|[<-|[]]]]; vm_compute; lia. }
  split; [exact H|].
  exact (single_is_unique_without_repeats ["a"; "b"; "z"] ["b"; "c"; "a"] 1.5%float H).
Defined.

(* ================================================================== *)
(** * What the normalizer keeps of a text *)
(* ================================================================== *)

Lemma isWordChar_facts (c : ascii) :
  isWordChar c = true ->
  isWhiteSpace c = false /\
  charIn c "/#%&=-" = false /\
  charIn c ".,'!$^*;:{}`~()" = false.
Proof.
  destruct c as [b0 b1 b2 b3 b4 b5 b6 b7].
  destruct b0, b1, b2, b3, b4, b5, b6, b7; vm_compute; repeat split; congruence.
Qed.

Lemma isNonSpace_facts (c : ascii) :
  isNonSpace c = true -> isWhiteSpace c = false.
Proof. unfold isNonSpace. apply negb_true_iff. Qed.

Lemma keepChars_append (p : ascii -> bool) (a b : string) :
  keepChars p (a ++ b) = (keepChars p a ++ keepChars p b)%string.
Proof.
  induction a as [|c a IH]; [reflexivity|].
  cbn [append keepChars]. destruct (p c); cbn [append]; now rewrite IH.
Qed.

Lemma keepChars_replaceClass (p : ascii -> bool) (members by_ s : string) :
  (forall c, p c = true -> charIn c members = false) ->
  keepChars p by_ = EmptyString ->
  keepChars p (replaceClass members by_ s) = keepChars p s.
Proof.
  intros Hclass Hby. induction s as [|c rest IH]; [reflexivity|].
  cbn [replaceClass keepChars].
  destruct (charIn c members) eqn:Hc.
  - rewrite keepChars_append, Hby, IH. cbn [append].
    destruct (p c) eqn:Hp; [|reflexivity].
    rewrite (Hclass c Hp) in Hc. discriminate Hc.
  - cbn [keepChars]. now rewrite IH.
Qed.

Lemma keepChars_collapseFrom (p : ascii -> bool) (s : string) :
  (forall c, p c = true -> isWhiteSpace c = false) ->
  forall inMatch : bool, keepChars p (collapseFrom inMatch s) = keepChars p s.
Proof.
  intro Hspace.
  assert (Hdrop : forall c, isWhiteSpace c = true -> p c = false).
  { intros c Hc. destruct (p c) eqn:Hp; [|reflexivity].
    rewrite (Hspace c Hp) in Hc. discriminate Hc. }
  induction s as [|c rest IH]; intro inMatch; [reflexivity|].
  cbn [collapseFrom keepChars]. destruct inMatch.
  - destruct (isWhiteSpace c) eqn:Hc.
    + now rewrite (Hdrop c Hc), IH.
    + cbn [keepChars]. now rewrite IH.
  - destruct (isWhiteSpace c) eqn:Hc; cbn [andb].
    + destruct (startsWithWhiteSpace rest); cbn [keepChars].
      * now rewrite (Hdrop " "%char eq_refl), (Hdrop c Hc), IH.
      * now rewrite IH.
    + cbn [keepChars]. now rewrite IH.
Qed.

Lemma replaceClass_length (members by_ s : string) :
  String.length by_ <= 1 ->
  String.length (replaceClass members by_ s) <= String.length s.
Proof.
  intro Hby. induction s as [|c rest IH]; [apply Nat.le_refl|].
  cbn [replaceClass]. destruct (charIn c members).
  - rewrite append_length. cbn [String.length]. lia.
  - cbn [String.length]. lia.
Qed.

Lemma collapseFrom_length (s : string) :
  forall inMatch : bool, String.length (collapseFrom inMatch s) <= String.length s.
Proof.
  induction s as [|c rest IH]; intro inMatch; [apply Nat.le_refl|].
  cbn [collapseFrom].
  destruct inMatch, (isWhiteSpace c), (startsWithWhiteSpace rest);
    cbn [andb String.length];
    try (specialize (IH true); lia); specialize (IH false); lia.
Qed.

(** X10.  Behind the case folding the normalizer only takes away.  With
    [lowered] the text, lower-cased when [isCaseSensitive] is false, the
    output is what the normalizer makes of [lowered] without case folding;
    it is never longer than [lowered]; its word characters [A-Za-z0-9_]
    are those of [lowered], in their order, none dropped and none added;
    and when [shouldMatchPunctuation] is true the same holds of all its
    characters that are not white space.  When [shouldMatchPunctuation] is
    false none of the 21 characters of the two classes it replaces is left
    in the output. *)
Theorem getConfiguredText_keeps_word_characters (text : string)
    (isCaseSensitive shouldMatchPunctuation shouldCollapseWhitespace : bool) :
  let lowered := if isCaseSensitive then text else toLocaleLowerCase text in
  let normalized :=
    getConfiguredText text isCaseSensitive shouldMatchPunctuation shouldCollapseWhitespace in
  normalized = getConfiguredText lowered true shouldMatchPunctuation
                                 shouldCollapseWhitespace /\
  String.length normalized <= String.length lowered /\
  keepChars isWordChar normalized = keepChars isWordChar lowered /\
  (shouldMatchPunctuation = true ->
   keepChars isNonSpace normalized = keepChars isNonSpace lowered) /\
  (shouldMatchPunctuation = false ->
   forallChars (outside "/#%&=-") normalized = true /\
   forallChars (outside ".,'!$^*;:{}`~()") normalized = true).
Proof.
  intros lowered normalized.
  assert (E : normalized = getConfiguredText lowered true shouldMatchPunctuation
                                             shouldCollapseWhitespace).
  { subst normalized lowered. unfold getConfiguredText.
    destruct isCaseSensitive; reflexivity. }
  split; [exact E|]. rewrite E. clear E normalized. clearbody lowered.
  unfold getConfiguredText, replaceWhiteSpaceRuns. cbn [negb].
  set (first := replaceClass "/#%&=-" " " lowered).
  set (second := replaceClass ".,'!$^*;:{}`~()" "" first).
  set (stripped := if negb shouldMatchPunctuation then second else lowered).
  assert (Hword : forall c, isWordChar c = true -> isWhiteSpace c = false)
    by (intros c Hc; apply (isWordChar_facts c Hc)).
  assert (Hword1 : forall c, isWordChar c = true -> charIn c "/#%&=-" = false)
    by (intros c Hc; apply (isWordChar_facts c Hc)).
  assert (Hword2 : forall c, isWordChar c = true -> charIn c ".,'!$^*;:{}`~()" = false)
    by (intros c Hc; apply (isWordChar_facts c Hc)).
  assert (Hlen : String.length stripped <= String.length lowered).
  { subst stripped second first. destruct shouldMatchPunctuation; cbn [negb];
      [apply Nat.le_refl|].
    etransitivity; [apply replaceClass_length; cbn; lia|].
    apply replaceClass_length. cbn. lia. }
  assert (Hkeep : keepChars isWordChar stripped = keepChars isWordChar lowered).
  { subst stripped second first. destruct shouldMatchPunctuation; cbn [negb];
      [reflexivity|].
    rewrite (keepChars_replaceClass isWordChar _ "" _ Hword2 eq_refl).
    apply (keepChars_replaceClass isWordChar _ " " _ Hword1 eq_refl). }
  assert (Hsame : shouldMatchPunctuation = true -> stripped = lowered).
  { intro E. subst stripped. now rewrite E. }
  assert (Hpunct : shouldMatchPunctuation = false ->
                   forallChars (outside "/#%&=-") stripped = true /\
                   forallChars (outside ".,'!$^*;:{}`~()") stripped = true).
  { intro E. subst stripped second. rewrite E. cbn [negb]. split.
    - apply replaceClass_forallChars; [reflexivity|].
      apply replaceClass_outside. reflexivity.
    - apply replaceClass_outside. reflexivity. }
  clearbody stripped. clear first second.
  destruct shouldCollapseWhitespace.
  - split; [pose proof (collapseFrom_length stripped false); lia|].
    split; [rewrite (keepChars_collapseFrom isWordChar stripped Hword); exact Hkeep|].
    split.
    + intro E. rewrite (keepChars_collapseFrom isNonSpace stripped isNonSpace_facts).
      now rewrite (Hsame E).
    + intro E. destruct (Hpunct E) as [H1 H2].
      split; apply collapseFrom_forallChars; (reflexivity || assumption).
  - split; [exact Hlen|]. split; [exact Hkeep|]. split; [|exact Hpunct].
    intro E. now rewrite (Hsame E).
Qed.
